(** * maelstrom-kafka: the single-node Kafka-style log of [main.go]

    A shallow embedding of the four Maelstrom handlers ([send], [poll],
    [commit_offsets], [list_committed_offsets]) and of the two [logs] tables
    they share, followed by the properties of the store.

    Modelling conventions.
    - Go's [int] is the 64-bit signed integer; it is a [Z], and the only
      arithmetic of the program ([offset++]) is wrapped by [wrap_int].
    - [map[string]int] is [gmap string Z], [map[string]map[int]int] is
      [gmap string (gmap Z Z)]; a [range] over a map visits its entries in
      an unspecified order, so every loop is a fold over a list of entries
      ([map_to_list] in the handlers) and the lemmas of the section on
      iteration order show that any other order gives the same result.
    - A handler starts after [json.Unmarshal] has decoded the body: a body
      that does not decode makes the handler return that error before it
      reads or writes the store.
    - [node.Reply] may fail; its answer is the boolean [reply_ok] given
      to each handler.  The handler returns the body it handed to
      [node.Reply] together with the error it returned.
    - Every handler body runs under the mutexes of the tables it touches
      ([Lock] for the table it writes, [RLock] for the one it reads), so
      handlers are atomic with respect to the store and a concurrent
      execution is a sequence of handler runs in completion order. *)

From stdpp Require Import gmap strings list fin_maps sorting.

Local Open Scope Z_scope.

(** ** Machine integers *)

Definition int_min : Z := - 2 ^ 63.
Definition int_max : Z := 2 ^ 63 - 1.

(** Two's complement wrap-around of a 64-bit signed integer. *)
Definition wrap_int (x : Z) : Z := (x + 2 ^ 63) mod 2 ^ 64 - 2 ^ 63.

(** ** Data model *)

(** [type logs struct { mutex; offsets map[string]int; msgs map[string]map[int]int }] *)
Record logs : Type := Logs {
  offsets : gmap string Z;
  msgs : gmap string (gmap Z Z)
}.

(** The two variables [uncommitted] and [committed] of [main]. *)
Record Store : Type := MkStore {
  uncommitted : logs;
  committed : logs
}.

(** State after the four [make] calls at the start of [main]. *)
Definition init : Store :=
  MkStore (Logs ∅ ∅) (Logs ∅ ∅).

(** Decoded request bodies ([SendBody], [PollBody], [CommitOffsetsBody],
    [ListCommittedOffsetsBody]); the [type] field is the constructor. *)
Inductive Request : Type :=
  | SendBody (Key : string) (Msg : Z)
  | PollBody (Offsets : gmap string Z)
  | CommitOffsetsBody (Offsets : gmap string Z)
  | ListCommittedOffsetsBody (Keys : list string).

(** Reply bodies.  An element [[]int{offset, msg}] of [PollOkBody.Msgs] is
    always a slice of length two and is a pair here. *)
Inductive Reply : Type :=
  | SendOkBody (Offset : Z)
  | PollOkBody (Msgs : gmap string (list (Z * Z)))
  | CommitOffsetsOkBody
  | ListCommittedOffsetsOkBody (Offsets : gmap string Z).

(** What a handler run shows to the outside: the body handed to
    [node.Reply] and whether the handler returned a non-nil error. *)
Record Outcome : Type := MkOutcome {
  reply : Reply;
  err : bool
}.

(** ** The [send] handler *)

(** [if _, ok := m[k]; !ok { m[k] = v }] *)
Definition ensure {V} (k : string) (v : V) (m : gmap string V) : gmap string V :=
  match m !! k with
  | Some _ => m
  | None => <[k := v]> m
  end.

Definition send (reply_ok : bool) (Key : string) (Msg : Z) (st : Store)
  : Store * Outcome :=
  let u := uncommitted st in
  let msgs1 := ensure Key ∅ (msgs u) in
  let offsets1 := ensure Key 0 (offsets u) in
  let offset := default 0 (offsets1 !! Key) in
  let msgs2 := <[Key := <[offset := Msg]> (default ∅ (msgs1 !! Key))]> msgs1 in
  if reply_ok then
    (MkStore (Logs (<[Key := wrap_int (offset + 1)]> offsets1) msgs2) (committed st),
     MkOutcome (SendOkBody offset) false)
  else
    (MkStore (Logs offsets1 msgs2) (committed st),
     MkOutcome (SendOkBody offset) true).

(** ** The [poll] handler *)

(** [sort.Ints] *)
Definition sort_Ints (l : list Z) : list Z := merge_sort Z.le l.

(** First inner loop: the offsets at or after [requestedOffset], in the
    order in which the map is traversed. *)
Definition poll_scan (requestedOffset : Z) (order : list Z) : list Z :=
  foldl (λ offs offset,
           if decide (requestedOffset ≤ offset) then offs ++ [offset] else offs)
        [] order.

(** Second inner loop: [msgs[key] = append(msgs[key], []int{offset, msg})]. *)
Definition poll_emit (key : string) (keyMsgs : gmap Z Z)
    (acc : gmap string (list (Z * Z))) (offset : Z) : gmap string (list (Z * Z)) :=
  match keyMsgs !! offset with
  | Some msg => <[key := default [] (acc !! key) ++ [(offset, msg)]]> acc
  | None => acc
  end.

(** One iteration of the outer loop. *)
Definition poll_key (u : logs) (acc : gmap string (list (Z * Z)))
    (kv : string * Z) : gmap string (list (Z * Z)) :=
  match msgs u !! kv.1 with
  | None => acc
  | Some keyMsgs =>
      foldl (poll_emit kv.1 keyMsgs) acc
            (sort_Ints (poll_scan kv.2 (map_to_list keyMsgs).*1))
  end.

Definition poll_msgs (u : logs) (Offsets : gmap string Z)
  : gmap string (list (Z * Z)) :=
  foldl (poll_key u) ∅ (map_to_list Offsets).

Definition poll (reply_ok : bool) (Offsets : gmap string Z) (st : Store)
  : Store * Outcome :=
  (st, MkOutcome (PollOkBody (poll_msgs (uncommitted st) Offsets)) (negb reply_ok)).

(** ** The [commit_offsets] handler *)

Definition set_committed_msgs (st : Store) (m : gmap string (gmap Z Z)) : Store :=
  MkStore (uncommitted st) (Logs (offsets (committed st)) m).

Definition set_committed_offsets (st : Store) (o : gmap string Z) : Store :=
  MkStore (uncommitted st) (Logs o (msgs (committed st))).

(** Body of the inner loop over [uncommittedKeyMsgs]. *)
Definition commit_entry (key : string) (requestedOffset : Z) (st : Store)
    (e : Z * Z) : Store :=
  if decide (requestedOffset < e.1) then st
  else
    let cm := ensure key ∅ (msgs (committed st)) in
    set_committed_msgs st (<[key := <[e.1 := e.2]> (default ∅ (cm !! key))]> cm).

(** Body of the outer loop over [body.Offsets]. *)
Definition commit_key (st : Store) (kv : string * Z) : Store :=
  match msgs (uncommitted st) !! kv.1 with
  | None => st
  | Some uncommittedKeyMsgs =>
      let st' := foldl (commit_entry kv.1 kv.2) st (map_to_list uncommittedKeyMsgs) in
      set_committed_offsets st' (<[kv.1 := kv.2]> (offsets (committed st')))
  end.

Definition commit_offsets (reply_ok : bool) (Offsets : gmap string Z) (st : Store)
  : Store * Outcome :=
  (foldl commit_key st (map_to_list Offsets),
   MkOutcome CommitOffsetsOkBody (negb reply_ok)).

(** ** The [list_committed_offsets] handler *)

Definition list_key (c : logs) (acc : gmap string Z) (key : string) : gmap string Z :=
  match offsets c !! key with
  | Some offset => <[key := offset]> acc
  | None => acc
  end.

Definition list_offsets (c : logs) (Keys : list string) : gmap string Z :=
  foldl (list_key c) ∅ Keys.

Definition list_committed_offsets (reply_ok : bool) (Keys : list string) (st : Store)
  : Store * Outcome :=
  (st, MkOutcome (ListCommittedOffsetsOkBody (list_offsets (committed st) Keys))
                 (negb reply_ok)).

#[global] Arguments send : simpl never.
#[global] Arguments poll : simpl never.
#[global] Arguments commit_offsets : simpl never.
#[global] Arguments list_committed_offsets : simpl never.

(** ** Dispatch and runs *)

(** [node.Handle]: the handler is chosen by the type of the body. *)
Definition handle (st : Store) (ev : Request * bool) : Store * Outcome :=
  match ev.1 with
  | SendBody k m => send ev.2 k m st
  | PollBody o => poll ev.2 o st
  | CommitOffsetsBody o => commit_offsets ev.2 o st
  | ListCommittedOffsetsBody ks => list_committed_offsets ev.2 ks st
  end.

(** A run from [st]: the final store and, in completion order, every
    request with the outcome of its handler. *)
Fixpoint run (st : Store) (evs : list (Request * bool))
  : Store * list (Request * Outcome) :=
  match evs with
  | [] => (st, [])
  | ev :: evs' =>
      let '(st1, out) := handle st ev in
      let '(st2, h) := run st1 evs' in
      (st2, (ev.1, out) :: h)
  end.

Definition final (evs : list (Request * bool)) : Store := (run init evs).1.
Definition history (evs : list (Request * bool)) : list (Request * Outcome) :=
  (run init evs).2.

(** The counter that the next [send] for [k] reads ([uncommitted.offsets[k]],
    which the handler initialises to [0] when the key is new). *)
Definition next_offset (st : Store) (k : string) : Z :=
  default 0 (offsets (uncommitted st) !! k).

(** Offsets acknowledged to the senders of key [k]: the [send_ok] replies
    that were delivered, in completion order. *)
Fixpoint acked_offsets (k : string) (h : list (Request * Outcome)) : list Z :=
  match h with
  | [] => []
  | (SendBody k' _, MkOutcome (SendOkBody o) false) :: h' =>
      if decide (k' = k) then o :: acked_offsets k h' else acked_offsets k h'
  | _ :: h' => acked_offsets k h'
  end.

(** Offsets assigned by the [send] handlers for key [k]: the offset of
    every [send_ok] body handed to [node.Reply], delivered or not, in
    completion order. *)
Fixpoint assigned_offsets (k : string) (h : list (Request * Outcome)) : list Z :=
  match h with
  | [] => []
  | (SendBody k' _, MkOutcome (SendOkBody o) _) :: h' =>
      if decide (k' = k) then o :: assigned_offsets k h' else assigned_offsets k h'
  | _ :: h' => assigned_offsets k h'
  end.

(** Two-level lookup [t.msgs[k][o]]. *)
Definition entry (t : logs) (k : string) (o : Z) : option Z :=
  msgs t !! k ≫= λ km, km !! o.

(** The pairs that one iteration of the outer loop of [poll] appends to
    [msgs[key]], in order: one per sorted offset that [keyMsgs] holds. *)
Definition poll_pairs (keyMsgs : gmap Z Z) (requestedOffset : Z) : list (Z * Z) :=
  omap (λ offset, (λ msg, (offset, msg)) <$> keyMsgs !! offset)
       (sort_Ints (poll_scan requestedOffset (map_to_list keyMsgs).*1)).

(** ** Invariants of the reachable stores *)

(** A key of the committed table (marker or messages) is a key of the
    uncommitted table: [commit_offsets] skips the keys it does not find
    there. *)
Definition committed_known (st : Store) : Prop :=
  ∀ k, is_Some (offsets (committed st) !! k) ∨ is_Some (msgs (committed st) !! k) →
       is_Some (msgs (uncommitted st) !! k).

(** After at most [n] acknowledged appends, every counter is between [0]
    and [n] and the offsets stored for a key are below its counter. *)
Definition offsets_below (st : Store) (n : Z) : Prop :=
  ∀ k, 0 ≤ next_offset st k ≤ n
       ∧ ∀ o, is_Some (entry (uncommitted st) k o) → 0 ≤ o < next_offset st k.

(** Every committed entry is an uncommitted entry with the same message. *)
Definition committed_sub (st : Store) : Prop :=
  ∀ k o m, entry (committed st) k o = Some m → entry (uncommitted st) k o = Some m.

(** Every committed entry of [st] was either committed in [st0] or is at or
    below an offset that [Offsets] requests for its key. *)
Definition committed_from (st0 : Store) (Offsets : gmap string Z) (st : Store)
  : Prop :=
  ∀ k o, is_Some (entry (committed st) k o) →
         is_Some (entry (committed st0) k o)
         ∨ ∃ o', Offsets !! k = Some o' ∧ o ≤ o'.

(** ** Other traversal orders

    The loops of [commit_offsets] and [poll] for an arbitrary order of
    visiting each inner map ([inner key m] lists what [range m] yields). *)

Definition commit_key_in (inner : string → gmap Z Z → list (Z * Z))
    (st : Store) (kv : string * Z) : Store :=
  match msgs (uncommitted st) !! kv.1 with
  | None => st
  | Some uncommittedKeyMsgs =>
      let st' := foldl (commit_entry kv.1 kv.2) st (inner kv.1 uncommittedKeyMsgs) in
      set_committed_offsets st' (<[kv.1 := kv.2]> (offsets (committed st')))
  end.

Definition poll_key_in (inner : string → gmap Z Z → list Z) (u : logs)
    (acc : gmap string (list (Z * Z))) (kv : string * Z)
  : gmap string (list (Z * Z)) :=
  match msgs u !! kv.1 with
  | None => acc
  | Some keyMsgs =>
      foldl (poll_emit kv.1 keyMsgs) acc
            (sort_Ints (poll_scan kv.2 (inner kv.1 keyMsgs)))
  end.

(** ** The log of a key, read off a run *)

(** The messages of the [send] requests for [k], in completion order. *)
Definition sent_msgs (k : string) (evs : list (Request * bool)) : list Z :=
  omap (λ ev : Request * bool,
          match ev.1 with
          | SendBody k' m => if decide (k' = k) then Some m else None
          | _ => None
          end) evs.

(** Messages paired with consecutive offsets from [start] on. *)
Fixpoint numbered (start : Z) (l : list Z) : list (Z * Z) :=
  match l with
  | [] => []
  | m :: l' => (start, m) :: numbered (start + 1) l'
  end.

(** The offsets stored for a key are [0, ..., c-1] for its counter [c],
    and possibly [c] itself (an append whose reply failed); counters are
    between [0] and [n]. *)
Definition offsets_dense (st : Store) (n : Z) : Prop :=
  ∀ k, 0 ≤ next_offset st k ≤ n
       ∧ (∀ o, is_Some (entry (uncommitted st) k o) → 0 ≤ o ≤ next_offset st k)
       ∧ (∀ o, 0 ≤ o < next_offset st k → is_Some (entry (uncommitted st) k o)).

(** A key for the examples. *)
Definition k1 : string := "k1".

(** * Properties *)

(** ** The end-to-end scenario of the specification *)

Example scenario_replies :
  (history [(SendBody k1 9, true); (SendBody k1 5, true);
            (PollBody {[k1 := 0]}, true); (CommitOffsetsBody {[k1 := 0]}, true);
            (ListCommittedOffsetsBody [k1], true); (PollBody {[k1 := 1]}, true)]).*2
  = [MkOutcome (SendOkBody 0) false; MkOutcome (SendOkBody 1) false;
     MkOutcome (PollOkBody {[k1 := [(0, 9); (1, 5)]]}) false;
     MkOutcome CommitOffsetsOkBody false;
     MkOutcome (ListCommittedOffsetsOkBody {[k1 := 0]}) false;
     MkOutcome (PollOkBody {[k1 := [(1, 5)]]}) false].
Proof. vm_compute. reflexivity. Qed.

(** ** Machine integers *)

Lemma wrap_int_id (x : Z) : int_min ≤ x ≤ int_max → wrap_int x = x.
Proof.
  unfold int_min, int_max, wrap_int. intros Hx.
  rewrite Z.mod_small by lia. lia.
Qed.

Lemma wrap_int_max : wrap_int (int_max + 1) = int_min.
Proof. reflexivity. Qed.

(** ** [ensure] *)

Section ensure_facts.
Context {V : Type}.
Implicit Types (m : gmap string V) (k : string) (v : V).

Lemma ensure_lookup k v m : ensure k v m !! k = Some (default v (m !! k)).
Proof.
  unfold ensure. destruct (m !! k) as [x|] eqn:E; simpl.
  - exact E.
  - apply lookup_insert_eq.
Qed.

Lemma ensure_lookup_ne k k' v m : k ≠ k' → ensure k v m !! k' = m !! k'.
Proof.
  intros Hne. unfold ensure. destruct (m !! k); [done|].
  by rewrite lookup_insert_ne.
Qed.

Lemma ensure_present k v m x : m !! k = Some x → ensure k v m = m.
Proof. intros E. unfold ensure. by rewrite E. Qed.

Lemma insert_ensure k v w m : <[k := w]> (ensure k v m) = <[k := w]> m.
Proof.
  unfold ensure. destruct (m !! k); [done|]. apply insert_insert_eq.
Qed.
End ensure_facts.

(** ** [send] *)

Section send_facts.
Implicit Types (st : Store) (k : string) (m o : Z).

Lemma send_reply ok k m st :
  (send ok k m st).2 = MkOutcome (SendOkBody (next_offset st k)) (negb ok).
Proof.
  unfold send, next_offset. rewrite ensure_lookup. simpl.
  destruct (offsets (uncommitted st) !! k); by destruct ok.
Qed.

Lemma send_committed ok k m st : committed (send ok k m st).1 = committed st.
Proof. unfold send. by destruct ok. Qed.

Lemma send_msgs ok k m st :
  msgs (uncommitted (send ok k m st).1)
  = <[k := <[next_offset st k := m]> (default ∅ (msgs (uncommitted st) !! k))]>
      (msgs (uncommitted st)).
Proof.
  assert (default 0 (ensure k 0 (offsets (uncommitted st)) !! k) = next_offset st k)
    as Hoff.
  { rewrite ensure_lookup. unfold next_offset.
    by destruct (offsets (uncommitted st) !! k). }
  assert (default ∅ (ensure k (∅ : gmap Z Z) (msgs (uncommitted st)) !! k)
          = default ∅ (msgs (uncommitted st) !! k)) as Hm.
  { rewrite ensure_lookup. by destruct (msgs (uncommitted st) !! k). }
  unfold send. destruct ok; simpl; rewrite Hoff, Hm; apply insert_ensure.
Qed.

Lemma send_entry ok k m st k' o :
  entry (uncommitted (send ok k m st).1) k' o
  = if decide (k' = k ∧ o = next_offset st k) then Some m
    else entry (uncommitted st) k' o.
Proof.
  unfold entry. rewrite send_msgs.
  destruct (decide (k' = k)) as [->|Hk].
  - rewrite lookup_insert_eq. simpl.
    destruct (decide (o = next_offset st k)) as [->|Ho].
    + rewrite lookup_insert_eq. by rewrite decide_True.
    + rewrite lookup_insert_ne by done. rewrite decide_False by tauto.
      by destruct (msgs (uncommitted st) !! k).
  - rewrite lookup_insert_ne by done. by rewrite decide_False by tauto.
Qed.

Lemma send_msgs_present ok k m st k' :
  is_Some (msgs (uncommitted (send ok k m st).1) !! k')
  ↔ k' = k ∨ is_Some (msgs (uncommitted st) !! k').
Proof.
  rewrite send_msgs. destruct (decide (k' = k)) as [->|Hk].
  - rewrite lookup_insert_eq. split; eauto.
  - rewrite lookup_insert_ne by done. split; [by right|by intros [?|?]].
Qed.

Lemma send_next_offset_ok k m st k' :
  next_offset (send true k m st).1 k'
  = if decide (k' = k) then wrap_int (next_offset st k + 1) else next_offset st k'.
Proof.
  unfold next_offset, send. simpl. destruct (decide (k' = k)) as [->|Hk].
  - rewrite lookup_insert_eq, ensure_lookup. simpl.
    by destruct (offsets (uncommitted st) !! k).
  - by rewrite lookup_insert_ne, ensure_lookup_ne.
Qed.

Lemma send_next_offset_failed k m st k' :
  next_offset (send false k m st).1 k' = next_offset st k'.
Proof.
  unfold next_offset, send. simpl. destruct (decide (k' = k)) as [->|Hk].
  - rewrite ensure_lookup. by destruct (offsets (uncommitted st) !! k).
  - by rewrite ensure_lookup_ne.
Qed.
End send_facts.

(** ** Runs *)

Section run_facts.
Implicit Types (st : Store) (evs : list (Request * bool)) (ev : Request * bool).

Lemma run_app st evs1 evs2 :
  run st (evs1 ++ evs2)
  = ((run (run st evs1).1 evs2).1, (run st evs1).2 ++ (run (run st evs1).1 evs2).2).
Proof.
  revert st. induction evs1 as [|ev evs1 IH]; intros st; simpl.
  - by destruct (run st evs2).
  - destruct (handle st ev) as [st1 out]. rewrite IH.
    destruct (run st1 evs1) as [st2 h]. done.
Qed.

Lemma final_snoc evs ev : final (evs ++ [ev]) = (handle (final evs) ev).1.
Proof.
  unfold final. rewrite run_app. simpl.
  by destruct (handle (run init evs).1 ev).
Qed.

Lemma history_snoc evs ev :
  history (evs ++ [ev]) = history evs ++ [(ev.1, (handle (final evs) ev).2)].
Proof.
  unfold history, final. rewrite run_app. simpl.
  by destruct (handle (run init evs).1 ev).
Qed.

Lemma acked_offsets_app k (h1 h2 : list (Request * Outcome)) :
  acked_offsets k (h1 ++ h2) = acked_offsets k h1 ++ acked_offsets k h2.
Proof.
  induction h1 as [|[r [b e]] h1 IH]; [done|]. simpl.
  destruct r; try done. destruct b; try done. destruct e; try done.
  case_decide; [|done]. simpl. by rewrite IH.
Qed.
End run_facts.

(** ** [commit_offsets] leaves the uncommitted table alone *)

Section commit_frame.
Implicit Types (st : Store) (key : string).

Lemma commit_entry_uncommitted key ro st e :
  uncommitted (commit_entry key ro st e) = uncommitted st.
Proof. unfold commit_entry. by case_decide. Qed.

Lemma commit_entries_uncommitted key ro (l : list (Z * Z)) st :
  uncommitted (foldl (commit_entry key ro) st l) = uncommitted st.
Proof.
  revert st. induction l as [|e l IH]; intros st; [done|].
  cbn [foldl]. by rewrite IH, commit_entry_uncommitted.
Qed.

Lemma commit_key_uncommitted st kv :
  uncommitted (commit_key st kv) = uncommitted st.
Proof.
  unfold commit_key. destruct (msgs (uncommitted st) !! kv.1); [|done].
  cbn. apply commit_entries_uncommitted.
Qed.

Lemma commit_keys_uncommitted (l : list (string * Z)) st :
  uncommitted (foldl commit_key st l) = uncommitted st.
Proof.
  revert st. induction l as [|kv l IH]; intros st; [done|].
  cbn [foldl]. by rewrite IH, commit_key_uncommitted.
Qed.

Lemma commit_offsets_uncommitted ok Offsets st :
  uncommitted (commit_offsets ok Offsets st).1 = uncommitted st.
Proof. apply commit_keys_uncommitted. Qed.
End commit_frame.

(** Only [send] writes the uncommitted table. *)
Lemma handle_uncommitted (st : Store) (r : Request) (ok : bool) :
  (∀ k m, r ≠ SendBody k m) →
  uncommitted (handle st (r, ok)).1 = uncommitted st.
Proof.
  intros Hr. destruct r as [k m|o|o|ks]; [by destruct (Hr k m)|done| |done].
  apply commit_offsets_uncommitted.
Qed.

Lemma acked_offsets_not_send (k : string) (r : Request) (out : Outcome) :
  (∀ k' m, r ≠ SendBody k' m) → acked_offsets k [(r, out)] = [].
Proof. intros Hr. destruct r as [k' m| | |]; [by destruct (Hr k' m)|done..]. Qed.

(** ** Offsets handed out by [send] *)

(** As long as the counter of [k] has not reached the largest [int], the
    acknowledged offsets of [k] are [0, 1, ..., n-1] and the counter is [n]. *)
Lemma acked_offsets_counter (evs : list (Request * bool)) (k : string) :
  Z.of_nat (length (acked_offsets k (history evs))) ≤ int_max →
  acked_offsets k (history evs)
    = Z.of_nat <$> seq 0 (length (acked_offsets k (history evs)))
  ∧ next_offset (final evs) k = Z.of_nat (length (acked_offsets k (history evs))).
Proof.
  induction evs as [|[r ok] evs IH] using rev_ind; [done|].
  rewrite history_snoc, final_snoc, acked_offsets_app, length_app.
  destruct r as [k' m|o|o|ks];
    try (cbn [fst]; rewrite acked_offsets_not_send, Nat.add_0_r, app_nil_r by done;
         unfold next_offset; rewrite handle_uncommitted by done; exact IH).
  change (handle (final evs) (SendBody k' m, ok)) with (send ok k' m (final evs)).
  rewrite send_reply. destruct ok; cbn [fst snd negb acked_offsets].
  - destruct (decide (k' = k)) as [->|Hk]; cbn [length app].
    + intros Hlen. destruct IH as [IHa IHc]; [lia|].
      rewrite send_next_offset_ok, decide_True by done.
      rewrite IHc. split.
      * rewrite Nat.add_1_r, seq_S, fmap_app. cbn. by rewrite <- IHa.
      * rewrite wrap_int_id; [lia|]. unfold int_min, int_max in *. lia.
    + rewrite Nat.add_0_r, app_nil_r, send_next_offset_ok, decide_False by done.
      exact IH.
  - rewrite Nat.add_0_r, app_nil_r, send_next_offset_failed. exact IH.
Qed.

(** X19.  For every key [k], the offsets of the [send] calls for [k] whose
    reply was delivered, from the empty store and in completion order
    (whatever other requests are interleaved), are exactly [0, 1, 2, ...]:
    the [i]-th one is [i], so they are strictly increasing with no duplicate
    and no gap; the counter of [k] equals their number, and one more
    [send] whose reply is delivered answers that counter and increments it
    by exactly one.  The bound keeps the counter inside Go's 64-bit [int].
    Nothing is said here of a [send] whose reply fails. *)
Theorem send_offsets_sequential (evs : list (Request * bool)) (k : string) :
  Z.of_nat (length (acked_offsets k (history evs))) < int_max →
  acked_offsets k (history evs)
    = Z.of_nat <$> seq 0 (length (acked_offsets k (history evs)))
  ∧ StronglySorted Z.lt (acked_offsets k (history evs))
  ∧ next_offset (final evs) k = Z.of_nat (length (acked_offsets k (history evs)))
  ∧ ∀ m : Z,
      (send true k m (final evs)).2
        = MkOutcome (SendOkBody (next_offset (final evs) k)) false
      ∧ next_offset (send true k m (final evs)).1 k = next_offset (final evs) k + 1.
Proof.
  intros Hlen. destruct (acked_offsets_counter evs k) as [Ha Hc]; [lia|].
  split; [exact Ha|]. split; [|split; [exact Hc|]].
  - rewrite Ha. generalize (length (acked_offsets k (history evs))) as n.
    intros n. induction n as [|n IHn]; [constructor|].
    rewrite seq_S, fmap_app. apply StronglySorted_app_2; [|exact IHn|].
    + intros x y Hx Hy. apply list_elem_of_fmap in Hx as [i [-> Hi]].
      apply elem_of_seq in Hi. cbn in Hy. apply list_elem_of_singleton in Hy.
      lia.
    + repeat constructor.
  - intros m. rewrite send_reply, send_next_offset_ok, decide_True by done.
    split; [done|]. apply wrap_int_id. rewrite Hc.
    unfold int_min, int_max in *. lia.
Qed.

Lemma send_offsets_sequential_witness :
  let evs := [(SendBody k1 9, true); (PollBody {[k1 := 0]}, true);
              (SendBody k1 5, false); (SendBody "k2" 7, true);
              (SendBody k1 6, true); (CommitOffsetsBody {[k1 := 0]}, true);
              (SendBody k1 8, true)] in
  Z.of_nat (length (acked_offsets k1 (history evs))) < int_max
  ∧ acked_offsets k1 (history evs) = [0; 1; 2]
  ∧ next_offset (final evs) k1 = 3.
Proof.
  intros evs.
  assert (Z.of_nat (length (acked_offsets k1 (history evs))) < int_max) as Hlen
    by (vm_compute; reflexivity).
  destruct (send_offsets_sequential evs k1 Hlen) as (Ha & _ & Hc & _).
  split; [exact Hlen|]. split.
  - rewrite Ha. vm_compute. reflexivity.
  - rewrite Hc. vm_compute. reflexivity.
Defined.

(** ** A failed reply in [send] *)

(** C10.  [send] stores the message at the assigned offset and hands that
    offset to [node.Reply] before incrementing the counter.  When the reply
    fails the handler returns the error, the message is stored and the
    counter is the same, so the next [send] for the key answers the same
    offset and overwrites the stored message. *)
Theorem send_reply_failure_not_atomic (st : Store) (k : string) (m1 m2 : Z) :
  let o := next_offset st k in
  let st1 := (send false k m1 st).1 in
  let st2 := (send true k m2 st1).1 in
  (send false k m1 st).2 = MkOutcome (SendOkBody o) true
  ∧ entry (uncommitted st1) k o = Some m1
  ∧ next_offset st1 k = o
  ∧ (send true k m2 st1).2 = MkOutcome (SendOkBody o) false
  ∧ entry (uncommitted st2) k o = Some m2
  ∧ next_offset st2 k = wrap_int (o + 1).
Proof.
  intros o st1 st2. subst o st1 st2.
  rewrite !send_reply, !send_entry, send_next_offset_ok, !send_next_offset_failed.
  rewrite !decide_True by done. done.
Qed.

(** C1.  The handler does not keep the sequence [0, 1, 2, ...] when a reply
    fails.  From the empty store, a [send] for [k1] whose [node.Reply] fails
    followed by a [send] for [k1] whose reply is delivered are both assigned
    offset [0]: the first append stores its message at offset [0] and
    returns before [offset++], so the counter is still [0] after one append
    and [1] after two, and the second append overwrites the message of the
    first. *)
Theorem send_failed_reply_reuses_offset :
  let evs := [(SendBody k1 9, false); (SendBody k1 5, true)] in
  assigned_offsets k1 (history evs) = [0; 0]
  ∧ assigned_offsets k1 (history evs) ≠ [0; 1]
  ∧ entry (uncommitted (final [(SendBody k1 9, false)])) k1 0 = Some 9
  ∧ next_offset (final [(SendBody k1 9, false)]) k1 = 0
  ∧ entry (uncommitted (final evs)) k1 0 = Some 5
  ∧ next_offset (final evs) k1 = 1.
Proof.
  intros evs.
  assert (assigned_offsets k1 (history evs) = [0; 0]) as E
    by (vm_compute; reflexivity).
  split; [exact E|]. split; [rewrite E; discriminate|].
  vm_compute. done.
Qed.

Example send_reply_failure_overwrites :
  let evs := [(SendBody k1 9, false); (SendBody k1 5, true)] in
  (history evs).*2 = [MkOutcome (SendOkBody 0) true; MkOutcome (SendOkBody 0) false]
  ∧ entry (uncommitted (final evs)) k1 0 = Some 5
  ∧ entry (uncommitted (final [(SendBody k1 9, false)])) k1 0 = Some 9.
Proof. vm_compute. done. Qed.

(** ** Closed form of [commit_offsets] *)

Section commit_closed_form.
Implicit Types (st : Store) (key : string) (ro : Z) (l : list (Z * Z)).

Lemma commit_entry_offsets key ro st e :
  offsets (committed (commit_entry key ro st e)) = offsets (committed st).
Proof. unfold commit_entry. by case_decide. Qed.

Lemma commit_entries_offsets key ro l st :
  offsets (committed (foldl (commit_entry key ro) st l)) = offsets (committed st).
Proof.
  revert st. induction l as [|e l IH]; intros st; [done|].
  cbn [foldl]. by rewrite IH, commit_entry_offsets.
Qed.

Lemma commit_entry_msgs key ro st e :
  msgs (committed (commit_entry key ro st e))
  = if decide (e.1 ≤ ro)
    then <[key := <[e.1 := e.2]> (default ∅ (msgs (committed st) !! key))]>
           (msgs (committed st))
    else msgs (committed st).
Proof.
  unfold commit_entry. destruct (decide (ro < e.1)) as [Hlt|Hge].
  - by rewrite decide_False by lia.
  - rewrite decide_True by lia. cbn. rewrite ensure_lookup, insert_ensure.
    by destruct (msgs (committed st) !! key).
Qed.

(** The inner loop, for any traversal [l] without repeated offsets: the
    entries at or below [ro] are laid over what was committed for [key]. *)
Lemma commit_entries_msgs key ro l st :
  NoDup l.*1 →
  msgs (committed (foldl (commit_entry key ro) st l))
  = if decide (filter (λ e, e.1 ≤ ro) l = [])
    then msgs (committed st)
    else <[key := list_to_map (filter (λ e, e.1 ≤ ro) l)
                    ∪ default ∅ (msgs (committed st) !! key)]>
           (msgs (committed st)).
Proof.
  revert st. induction l as [|[o m] l IH]; intros st Hnd; [done|].
  rewrite fmap_cons in Hnd. apply NoDup_cons in Hnd as [Hnotin Hnd].
  cbn [foldl]. rewrite IH, commit_entry_msgs by done.
  rewrite filter_cons. cbn [fst snd] in *.
  destruct (decide (o ≤ ro)) as [Hle|Hgt]; [|done].
  rewrite (decide_False (P := _ :: _ = [])) by done.
  rewrite lookup_insert_eq. cbn [default]. rewrite list_to_map_cons.
  set (B := default ∅ (msgs (committed st) !! key)).
  case_decide as HF.
  - rewrite HF. cbn. by rewrite <- insert_union_l, (left_id_L ∅ (∪)).
  - rewrite insert_insert_eq. f_equal.
    rewrite <- insert_union_l. symmetry. apply insert_union_r.
    apply not_elem_of_list_to_map_1. intros Hin. apply Hnotin.
    apply list_elem_of_fmap in Hin as [e' [-> He']].
    apply list_elem_of_fmap. exists e'. split; [done|].
    by apply list_elem_of_filter in He' as [_ ?].
Qed.

Lemma filter_map_to_list_nil ro (ukm : gmap Z Z) :
  filter (λ e : Z * Z, e.1 ≤ ro) (map_to_list ukm) = []
  ↔ filter (λ e : Z * Z, e.1 ≤ ro) ukm = ∅.
Proof.
  rewrite map_filter_alt. split.
  - by intros ->.
  - intros H. destruct (filter _ (map_to_list ukm)) as [|[o m] F]; [done|].
    rewrite list_to_map_cons in H. by apply insert_non_empty in H.
Qed.

(** One iteration of the outer loop. *)
Lemma commit_key_spec st key ro :
  commit_key st (key, ro)
  = match msgs (uncommitted st) !! key with
    | None => st
    | Some ukm =>
        MkStore (uncommitted st)
          (Logs (<[key := ro]> (offsets (committed st)))
                (if decide (filter (λ e : Z * Z, e.1 ≤ ro) ukm = ∅)
                 then msgs (committed st)
                 else <[key := filter (λ e : Z * Z, e.1 ≤ ro) ukm
                                 ∪ default ∅ (msgs (committed st) !! key)]>
                        (msgs (committed st))))
    end.
Proof.
  unfold commit_key. cbn [fst snd].
  destruct (msgs (uncommitted st) !! key) as [ukm|]; [|done].
  unfold set_committed_offsets.
  rewrite commit_entries_uncommitted, commit_entries_offsets.
  rewrite commit_entries_msgs by apply NoDup_fst_map_to_list.
  f_equal. f_equal. rewrite <- map_filter_alt.
  destruct (decide (filter _ (map_to_list ukm) = [])) as [E|E].
  - rewrite decide_True; [done|]. by apply filter_map_to_list_nil.
  - rewrite decide_False; [done|]. by rewrite <- filter_map_to_list_nil.
Qed.

(** The handler on a request that names one key. *)
Lemma commit_offsets_singleton ok key ro st :
  commit_offsets ok {[key := ro]} st
  = (commit_key st (key, ro), MkOutcome CommitOffsetsOkBody (negb ok)).
Proof. unfold commit_offsets. by rewrite map_to_list_singleton. Qed.
End commit_closed_form.

(** ** [list_committed_offsets] *)

Section list_facts.
Implicit Types (c : logs) (Keys : list string) (k : string).

Lemma list_keys_lookup c Keys (acc : gmap string Z) k :
  foldl (list_key c) acc Keys !! k
  = if decide (k ∈ Keys)
    then match offsets c !! k with Some o => Some o | None => acc !! k end
    else acc !! k.
Proof.
  revert acc. induction Keys as [|k0 Keys IH]; intros acc.
  { by rewrite decide_False by apply not_elem_of_nil. }
  cbn [foldl]. rewrite IH. unfold list_key.
  destruct (decide (k = k0)) as [->|Hne].
  - rewrite (decide_True (P := k0 ∈ k0 :: Keys)) by left.
    destruct (offsets c !! k0) as [o|] eqn:E.
    + rewrite lookup_insert_eq. by case_decide.
    + by case_decide.
  - assert (acc' : (match offsets c !! k0 with
                    | Some o => <[k0 := o]> acc
                    | None => acc
                    end) !! k = acc !! k).
    { destruct (offsets c !! k0); [by rewrite lookup_insert_ne|done]. }
    rewrite acc'. destruct (decide (k ∈ Keys)) as [Hin|Hnin].
    + by rewrite decide_True by by right.
    + rewrite decide_False; [done|]. intros Hin. apply elem_of_cons in Hin.
      tauto.
Qed.

(** The reply holds the recorded marker of each requested key and nothing
    else. *)
Lemma list_offsets_lookup c Keys k :
  list_offsets c Keys !! k = if decide (k ∈ Keys) then offsets c !! k else None.
Proof.
  unfold list_offsets. rewrite list_keys_lookup, lookup_empty.
  case_decide; [|done]. by destruct (offsets c !! k).
Qed.

Lemma list_offsets_singleton c k :
  list_offsets c [k]
  = match offsets c !! k with Some o => {[k := o]} | None => ∅ end.
Proof.
  unfold list_offsets, list_key. cbn [foldl].
  destruct (offsets c !! k); [|done]. apply insert_empty.
Qed.
End list_facts.

(** ** Commit on one key *)

Section commit_one_key.
Implicit Types (st : Store) (k : string) (o : Z).

Lemma commit_key_marker st k o :
  is_Some (msgs (uncommitted st) !! k) →
  offsets (committed (commit_key st (k, o))) !! k = Some o.
Proof.
  intros [ukm E]. rewrite commit_key_spec, E. cbn. apply lookup_insert_eq.
Qed.

Lemma commit_key_absent st k o :
  msgs (uncommitted st) !! k = None → commit_key st (k, o) = st.
Proof. intros E. by rewrite commit_key_spec, E. Qed.

(** What one iteration leaves at [k'], [off] of the committed table: the
    uncommitted entry of [k] when it is at or below [o], else what was
    there. *)
Lemma commit_key_entry st k o k' off :
  entry (committed (commit_key st (k, o))) k' off
  = match (if decide (k' = k ∧ off ≤ o) then entry (uncommitted st) k off
           else None) with
    | Some m => Some m
    | None => entry (committed st) k' off
    end.
Proof.
  rewrite commit_key_spec. unfold entry.
  destruct (msgs (uncommitted st) !! k) as [ukm|] eqn:E; cbn.
  2:{ by case_decide. }
  set (F := filter (λ e : Z * Z, e.1 ≤ o) ukm).
  assert (F !! off = if decide (off ≤ o) then ukm !! off else None) as HF.
  { unfold F. destruct (ukm !! off) as [m|] eqn:Em.
    - case_decide.
      + by apply map_lookup_filter_Some.
      + apply map_lookup_filter_None. right. intros m' Hm'. cbn. lia.
    - rewrite map_lookup_filter_None_2 by by left. by case_decide. }
  destruct (decide (F = ∅)) as [HF0|HF0].
  - rewrite HF0, lookup_empty in HF.
    destruct (decide (k' = k ∧ off ≤ o)) as [[-> Hle]|Hn]; [|done].
    rewrite decide_True in HF by done. by rewrite <- HF.
  - destruct (decide (k' = k)) as [->|Hk].
    + rewrite lookup_insert_eq. cbn. rewrite lookup_union, HF.
      destruct (decide (off ≤ o)) as [Hle|Hgt].
      * rewrite decide_True by done.
        destruct (ukm !! off) as [m|] eqn:Em.
        -- by destruct (default ∅ (msgs (committed st) !! k) !! off).
        -- rewrite (left_id_L None _).
           by destruct (msgs (committed st) !! k).
      * rewrite decide_False by tauto. rewrite (left_id_L None _).
        by destruct (msgs (committed st) !! k).
    + rewrite lookup_insert_ne by done. by rewrite decide_False by tauto.
Qed.
End commit_one_key.

(** ** Induction over the reachable stores *)

Lemma commit_keys_ind (P : Store → Prop) (l : list (string * Z)) (st : Store) :
  (∀ st' kv, P st' → P (commit_key st' kv)) → P st → P (foldl commit_key st l).
Proof.
  intros Hstep. revert st. induction l as [|kv l IH]; intros st Hst; [done|].
  cbn [foldl]. by apply IH, Hstep.
Qed.

Lemma final_ind (P : Store → Prop) :
  P init → (∀ st ev, P st → P (handle st ev).1) →
  ∀ evs, P (final evs).
Proof.
  intros Hinit Hstep evs. induction evs as [|ev evs IH] using rev_ind; [done|].
  rewrite final_snoc. by apply Hstep.
Qed.

Lemma commit_key_known (st : Store) (kv : string * Z) :
  committed_known st → committed_known (commit_key st kv).
Proof.
  destruct kv as [k o]. intros Hst k'. rewrite commit_key_spec.
  destruct (msgs (uncommitted st) !! k) as [ukm|] eqn:E; [|apply Hst].
  cbn. destruct (decide (k' = k)) as [->|Hne]; [by rewrite E|].
  rewrite lookup_insert_ne by done. intros H. apply Hst.
  destruct H as [H|H]; [by left|right].
  case_decide; [done|]. by rewrite lookup_insert_ne in H.
Qed.

Lemma final_committed_known (evs : list (Request * bool)) :
  committed_known (final evs).
Proof.
  apply final_ind.
  - intros k [[? H]|[? H]]; cbn in H; by rewrite lookup_empty in H.
  - intros st [r ok] Hst. destruct r as [k m|o|o|ks]; [|done| |done].
    + change (handle st (SendBody k m, ok)) with (send ok k m st).
      intros k'. rewrite send_committed, send_msgs_present. intros H.
      right. by apply Hst.
    + change (committed_known (foldl commit_key st (map_to_list o))).
      apply commit_keys_ind; [|done]. intros. by apply commit_key_known.
Qed.

(** ** Commit of a key that was never appended to *)

(** C9.  When [k] is absent from the uncommitted table, [commit_offsets]
    on [{k: o}] is acknowledged and leaves the whole store as it was: no
    entry is copied and no marker is set for [k], and a following
    [list_committed_offsets] on [[k]] answers the empty mapping. *)
Theorem commit_unknown_key_noop (evs : list (Request * bool)) (k : string)
    (o : Z) (ok : bool) :
  msgs (uncommitted (final evs)) !! k = None →
  commit_offsets ok {[k := o]} (final evs)
    = (final evs, MkOutcome CommitOffsetsOkBody (negb ok))
  ∧ msgs (committed (commit_offsets ok {[k := o]} (final evs)).1) !! k = None
  ∧ offsets (committed (commit_offsets ok {[k := o]} (final evs)).1) !! k = None
  ∧ (list_committed_offsets true [k] (commit_offsets ok {[k := o]} (final evs)).1).2
    = MkOutcome (ListCommittedOffsetsOkBody ∅) false.
Proof.
  intros Habs. rewrite commit_offsets_singleton, commit_key_absent by done.
  cbn [fst]. pose proof (final_committed_known evs k) as Hknown.
  rewrite Habs in Hknown.
  assert (offsets (committed (final evs)) !! k = None) as Ho.
  { apply eq_None_not_Some. intros H. by destruct Hknown as [? ?]; [left|]. }
  assert (msgs (committed (final evs)) !! k = None) as Hm.
  { apply eq_None_not_Some. intros H. by destruct Hknown as [? ?]; [right|]. }
  repeat split; [done..|].
  unfold list_committed_offsets. cbn [snd]. by rewrite list_offsets_singleton, Ho.
Qed.

Lemma commit_unknown_key_noop_witness :
  let evs := [(SendBody k1 9, true); (CommitOffsetsBody {[k1 := 0]}, true)] in
  msgs (uncommitted (final evs)) !! "k2" = None
  ∧ commit_offsets true {["k2" := 5]} (final evs)
    = (final evs, MkOutcome CommitOffsetsOkBody false).
Proof.
  intros evs.
  assert (msgs (uncommitted (final evs)) !! "k2" = None) as Habs
    by (vm_compute; reflexivity).
  split; [exact Habs|].
  exact (proj1 (commit_unknown_key_noop evs "k2" 5 true Habs)).
Defined.

(** ** Commit visibility *)

(** C3, as amended.  For every store and every key [k] present in the
    uncommitted table, right after [commit_offsets] on [{k: o}] the reply of
    [list_committed_offsets] on [[k]] is [{k: o}], and the committed table
    holds for [k] every entry the uncommitted table had for [k] at or below
    [o]. *)
Theorem commit_visibility (st : Store) (k : string) (o : Z) (ok : bool) :
  is_Some (msgs (uncommitted st) !! k) →
  (list_committed_offsets true [k] (commit_offsets ok {[k := o]} st).1).2
    = MkOutcome (ListCommittedOffsetsOkBody {[k := o]}) false
  ∧ ∀ off m, entry (uncommitted st) k off = Some m → off ≤ o →
             entry (committed (commit_offsets ok {[k := o]} st).1) k off = Some m.
Proof.
  intros Hk. rewrite commit_offsets_singleton. cbn [fst]. split.
  - unfold list_committed_offsets. cbn [snd].
    by rewrite list_offsets_singleton, commit_key_marker.
  - intros off m Hm Hle. rewrite commit_key_entry, decide_True by done.
    by rewrite Hm.
Qed.

Lemma commit_visibility_witness :
  let st := final [(SendBody k1 9, true); (SendBody k1 5, true)] in
  is_Some (msgs (uncommitted st) !! k1)
  ∧ (list_committed_offsets true [k1] (commit_offsets true {[k1 := 0]} st).1).2
    = MkOutcome (ListCommittedOffsetsOkBody {[k1 := 0]}) false.
Proof.
  intros st.
  assert (is_Some (msgs (uncommitted st) !! k1)) as Hk by (vm_compute; eauto).
  split; [exact Hk|].
  exact (proj1 (commit_visibility st k1 0 true Hk)).
Defined.

(** C3 as stated fails on a key that was never appended to: the handler
    skips it, and the reply of [list_committed_offsets] is empty. *)
Lemma commit_visibility_unknown_key :
  (list_committed_offsets true [k1] (commit_offsets true {[k1 := 0]} init).1).2
    = MkOutcome (ListCommittedOffsetsOkBody ∅) false
  ∧ (list_committed_offsets true [k1] (commit_offsets true {[k1 := 0]} init).1).2
    ≠ MkOutcome (ListCommittedOffsetsOkBody {[k1 := 0]}) false.
Proof.
  assert ((list_committed_offsets true [k1]
             (commit_offsets true {[k1 := 0]} init).1).2
          = MkOutcome (ListCommittedOffsetsOkBody ∅) false) as E
    by (vm_compute; reflexivity).
  split; [exact E|]. rewrite E. intros H.
  apply (f_equal (λ out, match reply out with
                         | ListCommittedOffsetsOkBody m => m !! k1
                         | _ => None
                         end)) in H.
  cbn beta iota delta [reply] in H.
  by rewrite lookup_empty, lookup_singleton_eq in H.
Qed.

(** ** The commit marker is overwritten *)

(** C5, as amended.  For every store and every key [k] present in the
    uncommitted table, [commit_offsets] on [{k: o1}] followed by
    [commit_offsets] on [{k: o2}] leaves the marker of [k] at [o2], whatever
    the order of [o1] and [o2]: the marker is overwritten, it is not the
    maximum of the two. *)
Theorem commit_marker_overwrite (st : Store) (k : string) (o1 o2 : Z)
    (ok1 ok2 : bool) :
  is_Some (msgs (uncommitted st) !! k) →
  offsets (committed
             (commit_offsets ok2 {[k := o2]} (commit_offsets ok1 {[k := o1]} st).1).1)
    !! k = Some o2.
Proof.
  intros Hk. rewrite !commit_offsets_singleton. cbn [fst].
  apply commit_key_marker. by rewrite commit_key_uncommitted.
Qed.

Lemma commit_marker_overwrite_witness :
  let st := final [(SendBody k1 9, true); (SendBody k1 5, true)] in
  is_Some (msgs (uncommitted st) !! k1)
  ∧ offsets (committed
               (commit_offsets true {[k1 := 0]}
                  (commit_offsets true {[k1 := 1]} st).1).1) !! k1 = Some 0.
Proof.
  intros st.
  assert (is_Some (msgs (uncommitted st) !! k1)) as Hk by (vm_compute; eauto).
  split; [exact Hk|].
  exact (commit_marker_overwrite st k1 1 0 true true Hk).
Defined.

(** C5 as stated fails on a key that was never appended to: both commits
    skip it and no marker is recorded. *)
Lemma commit_marker_unknown_key :
  offsets (committed
             (commit_offsets true {[k1 := 1]}
                (commit_offsets true {[k1 := 2]} init).1).1) !! k1 = None
  ∧ offsets (committed
               (commit_offsets true {[k1 := 1]}
                  (commit_offsets true {[k1 := 2]} init).1).1) !! k1 ≠ Some 1.
Proof.
  assert (offsets (committed
             (commit_offsets true {[k1 := 1]}
                (commit_offsets true {[k1 := 2]} init).1).1) !! k1 = None) as E
    by (vm_compute; reflexivity).
  split; [exact E|]. by rewrite E.
Qed.

(** ** Commit is idempotent *)

Lemma commit_key_idemp (st : Store) (k : string) (o : Z) :
  commit_key (commit_key st (k, o)) (k, o) = commit_key st (k, o).
Proof.
  rewrite (commit_key_spec (commit_key st (k, o))), commit_key_uncommitted.
  rewrite (commit_key_spec st).
  destruct (msgs (uncommitted st) !! k) as [ukm|] eqn:E; [|done].
  cbn. rewrite insert_insert_eq. f_equal. f_equal.
  case_decide; [done|].
  rewrite lookup_insert_eq, insert_insert_eq. cbn.
  by rewrite (assoc_L (∪)), (idemp_L (∪)).
Qed.

(** C6.  For every store, key [k] and offset [o], running [commit_offsets]
    on [{k: o}] twice in a row leaves the same store as running it once; in
    particular the committed table, messages and markers, is the same. *)
Theorem commit_idempotent (st : Store) (k : string) (o : Z) (ok1 ok2 : bool) :
  (commit_offsets ok2 {[k := o]} (commit_offsets ok1 {[k := o]} st).1).1
    = (commit_offsets ok1 {[k := o]} st).1
  ∧ msgs (committed
            (commit_offsets ok2 {[k := o]} (commit_offsets ok1 {[k := o]} st).1).1)
    = msgs (committed (commit_offsets ok1 {[k := o]} st).1)
  ∧ offsets (committed
               (commit_offsets ok2 {[k := o]} (commit_offsets ok1 {[k := o]} st).1).1)
    = offsets (committed (commit_offsets ok1 {[k := o]} st).1).
Proof.
  rewrite !commit_offsets_singleton. cbn [fst]. by rewrite commit_key_idemp.
Qed.

(** ** Commit does not touch what [poll] reads *)

(** C7.  [commit_offsets] changes neither the messages nor the counters of
    the uncommitted table, so every [poll] request is answered the same
    right before and right after any [commit_offsets] call. *)
Theorem commit_preserves_poll (st : Store) (Offsets : gmap string Z) (ok : bool) :
  msgs (uncommitted (commit_offsets ok Offsets st).1) = msgs (uncommitted st)
  ∧ offsets (uncommitted (commit_offsets ok Offsets st).1) = offsets (uncommitted st)
  ∧ ∀ (Polled : gmap string Z) (ok' : bool),
      (poll ok' Polled (commit_offsets ok Offsets st).1).2 = (poll ok' Polled st).2.
Proof.
  pose proof (commit_offsets_uncommitted ok Offsets st) as E.
  split; [by rewrite E|]. split; [by rewrite E|].
  intros Polled ok'. unfold poll. cbn [snd]. by rewrite E.
Qed.

(** ** Closed form of [poll] *)

Section poll_closed_form.
Implicit Types (u : logs) (km : gmap Z Z) (k key : string) (s o m : Z)
  (acc : gmap string (list (Z * Z))).

Lemma poll_scan_from s (l offs : list Z) :
  foldl (λ offs offset, if decide (s ≤ offset) then offs ++ [offset] else offs)
        offs l
  = offs ++ filter (λ o, s ≤ o) l.
Proof.
  revert offs. induction l as [|o l IH]; intros offs; cbn [foldl].
  - by rewrite app_nil_r.
  - rewrite IH, filter_cons. case_decide; [|done].
    by rewrite <- app_assoc.
Qed.

Lemma poll_scan_filter s (l : list Z) : poll_scan s l = filter (λ o, s ≤ o) l.
Proof. apply poll_scan_from. Qed.

(** [sort.Ints] returns the sorted rearrangement of its argument. *)
Lemma sort_Ints_sorted (l : list Z) : StronglySorted Z.le (sort_Ints l).
Proof. apply StronglySorted_merge_sort; apply _. Qed.

Lemma sort_Ints_perm (l : list Z) : sort_Ints l ≡ₚ l.
Proof. apply merge_sort_Permutation. Qed.

Lemma sorted_nodup_strict (l : list Z) :
  StronglySorted Z.le l → NoDup l → StronglySorted Z.lt l.
Proof.
  induction 1 as [|x l Hl IH Hx]; intros Hnd; [constructor|].
  apply NoDup_cons in Hnd as [Hnotin Hnd]. constructor; [by apply IH|].
  rewrite Forall_forall in *. intros y Hy.
  assert (x ≠ y) by (intros ->; done). specialize (Hx y Hy). lia.
Qed.

(** The second inner loop appends [omap ...] of the offsets it visits. *)
Lemma poll_emit_fold key km (l : list Z) acc :
  foldl (poll_emit key km) acc l
  = if decide (omap (λ o, (λ m, (o, m)) <$> km !! o) l = [])
    then acc
    else <[key := default [] (acc !! key)
                    ++ omap (λ o, (λ m, (o, m)) <$> km !! o) l]> acc.
Proof.
  revert acc. induction l as [|o l IH]; intros acc; [done|].
  cbn [foldl omap list_omap]. rewrite IH. unfold poll_emit.
  destruct (km !! o) as [m|]; cbn [fmap option_fmap option_map]; [|done].
  rewrite (decide_False (P := _ :: _ = [])) by done.
  case_decide as E.
  - by rewrite E.
  - rewrite lookup_insert_eq, insert_insert_eq. cbn [default]. unfold id.
    by rewrite <- app_assoc.
Qed.

Lemma poll_key_spec u acc k s :
  poll_key u acc (k, s)
  = match msgs u !! k with
    | None => acc
    | Some km =>
        if decide (poll_pairs km s = []) then acc
        else <[k := default [] (acc !! k) ++ poll_pairs km s]> acc
    end.
Proof.
  unfold poll_key. cbn [fst snd]. destruct (msgs u !! k) as [km|]; [|done].
  apply poll_emit_fold.
Qed.

Lemma sorted_offsets_elem km s o :
  o ∈ sort_Ints (poll_scan s (map_to_list km).*1) ↔ s ≤ o ∧ is_Some (km !! o).
Proof.
  rewrite sort_Ints_perm, poll_scan_filter, list_elem_of_filter.
  rewrite list_elem_of_fmap. split.
  - intros [Hs [[o' m] [-> Hin]]]. apply elem_of_map_to_list in Hin. eauto.
  - intros [Hs [m Hm]]. split; [done|]. exists (o, m).
    by rewrite elem_of_map_to_list.
Qed.

(** The pairs are exactly the stored entries at or after [s]. *)
Lemma poll_pairs_elem km s o m :
  (o, m) ∈ poll_pairs km s ↔ km !! o = Some m ∧ s ≤ o.
Proof.
  unfold poll_pairs. rewrite list_elem_of_omap. split.
  - intros (o' & Hin & Hf). apply sorted_offsets_elem in Hin as [Hs _].
    destruct (km !! o') as [m'|] eqn:E; [|done]. cbn in Hf. by simplify_eq.
  - intros [Hm Hs]. exists o. split.
    + apply sorted_offsets_elem. eauto.
    + by rewrite Hm.
Qed.

Lemma poll_pairs_offsets km s :
  (poll_pairs km s).*1 = sort_Ints (poll_scan s (map_to_list km).*1).
Proof.
  unfold poll_pairs.
  assert (Forall (λ o, is_Some (km !! o))
                 (sort_Ints (poll_scan s (map_to_list km).*1))) as Hall.
  { apply Forall_forall. intros o Ho. by apply sorted_offsets_elem in Ho as [_ ?]. }
  induction Hall as [|o l [m Hm] _ IH]; [done|].
  cbn [omap list_omap]. rewrite Hm. cbn. by rewrite IH.
Qed.

(** ... in strictly ascending order of offset. *)
Lemma poll_pairs_sorted km s : StronglySorted Z.lt (poll_pairs km s).*1.
Proof.
  rewrite poll_pairs_offsets. apply sorted_nodup_strict.
  - apply sort_Ints_sorted.
  - rewrite sort_Ints_perm, poll_scan_filter.
    apply NoDup_filter, NoDup_fst_map_to_list.
Qed.

Lemma poll_pairs_nil km s :
  poll_pairs km s = [] ↔ ∀ o m, km !! o = Some m → o < s.
Proof.
  split.
  - intros E o m Hm. destruct (decide (o < s)) as [|Hge]; [done|].
    assert ((o, m) ∈ poll_pairs km s) as Hin
      by (apply poll_pairs_elem; split; [done|lia]).
    rewrite E in Hin. by apply not_elem_of_nil in Hin.
  - intros Hall. destruct (poll_pairs km s) as [|[o m] l] eqn:E; [done|].
    assert ((o, m) ∈ poll_pairs km s) as Hin by (rewrite E; left).
    apply poll_pairs_elem in Hin as [Hm Hs]. specialize (Hall o m Hm). lia.
Qed.

Lemma poll_key_lookup u acc k0 s k :
  poll_key u acc (k0, s) !! k
  = if decide (k = k0)
    then match msgs u !! k with
         | None => acc !! k
         | Some km => if decide (poll_pairs km s = []) then acc !! k
                      else Some (default [] (acc !! k) ++ poll_pairs km s)
         end
    else acc !! k.
Proof.
  rewrite poll_key_spec. destruct (decide (k = k0)) as [->|Hne].
  - destruct (msgs u !! k0) as [km|]; [|done].
    case_decide; [done|]. by rewrite lookup_insert_eq.
  - destruct (msgs u !! k0) as [km|]; [|done].
    case_decide; [done|]. by rewrite lookup_insert_ne.
Qed.

(** The outer loop, for any traversal [l] of the request without repeated
    keys. *)
Lemma poll_keys_lookup u (l : list (string * Z)) acc k :
  NoDup l.*1 →
  foldl (poll_key u) acc l !! k
  = match (list_to_map l : gmap string Z) !! k with
    | Some s => poll_key u acc (k, s) !! k
    | None => acc !! k
    end.
Proof.
  revert acc. induction l as [|[k0 s0] l IH]; intros acc Hnd; [done|].
  rewrite fmap_cons in Hnd. apply NoDup_cons in Hnd as [Hnotin Hnd].
  cbn [foldl]. rewrite IH by done. rewrite list_to_map_cons.
  destruct (decide (k = k0)) as [->|Hne].
  - rewrite lookup_insert_eq.
    by rewrite (not_elem_of_list_to_map_1 l k0) by done.
  - rewrite lookup_insert_ne by done.
    assert (poll_key u acc (k0, s0) !! k = acc !! k) as Hacc
      by (by rewrite poll_key_lookup, decide_False).
    destruct (list_to_map l !! k) as [s|]; [|done].
    by rewrite (poll_key_lookup u (poll_key u acc (k0, s0))),
               (poll_key_lookup u acc k s k), Hacc.
Qed.

(** The reply of [poll]: for each requested key found in the table, its
    pairs at or after the requested offset, when there is one. *)
Lemma poll_msgs_lookup u (Offsets : gmap string Z) k :
  poll_msgs u Offsets !! k
  = match Offsets !! k, msgs u !! k with
    | Some s, Some km =>
        if decide (poll_pairs km s = []) then None else Some (poll_pairs km s)
    | _, _ => None
    end.
Proof.
  unfold poll_msgs. rewrite poll_keys_lookup by apply NoDup_fst_map_to_list.
  rewrite list_to_map_to_list. destruct (Offsets !! k) as [s|]; [|done].
  rewrite poll_key_lookup, decide_True by done.
  destruct (msgs u !! k) as [km|]; [|done]. by case_decide.
Qed.
End poll_closed_form.

(** ** Poll correctness *)

Lemma entry_Some (t : logs) (k : string) (o m : Z) :
  entry t k o = Some m ↔ ∃ km, msgs t !! k = Some km ∧ km !! o = Some m.
Proof.
  unfold entry. destruct (msgs t !! k) as [km|]; cbn.
  - split; [eauto|]. by intros (km' & [= <-] & ?).
  - split; [done|]. by intros (km' & ? & ?).
Qed.

(** C2.  For every store, key [k] and starting offset [s], the reply of
    [poll] on [{k: s}] has no entry for any other key; its entry for [k],
    when there is one, lists exactly the (offset, message) pairs stored for
    [k] in the uncommitted table with offset at or after [s], each once, in
    strictly ascending order of offset; and it has no entry for [k] exactly
    when no stored offset of [k] is at or after [s] (never appended to, or
    every entry below [s]).  The store is not changed. *)
Theorem poll_correct (st : Store) (k : string) (s : Z) (ok : bool) :
  poll ok {[k := s]} st
    = (st, MkOutcome (PollOkBody (poll_msgs (uncommitted st) {[k := s]})) (negb ok))
  ∧ (∀ k', k' ≠ k → poll_msgs (uncommitted st) {[k := s]} !! k' = None)
  ∧ (poll_msgs (uncommitted st) {[k := s]} !! k = None
     ↔ ∀ o m, entry (uncommitted st) k o = Some m → o < s)
  ∧ (∀ l, poll_msgs (uncommitted st) {[k := s]} !! k = Some l →
          StronglySorted Z.lt l.*1
          ∧ ∀ o m, (o, m) ∈ l ↔ entry (uncommitted st) k o = Some m ∧ s ≤ o).
Proof.
  split; [done|]. split; [|split].
  - intros k' Hne. by rewrite poll_msgs_lookup, lookup_singleton_ne.
  - rewrite poll_msgs_lookup, lookup_singleton_eq.
    destruct (msgs (uncommitted st) !! k) as [km|] eqn:E.
    + case_decide as Hnil.
      * split; [|done]. intros _ o m Hm. apply entry_Some in Hm as (km' & ? & Hm).
        simplify_eq. by apply (proj1 (poll_pairs_nil km s) Hnil o m).
      * split; [done|]. intros Hall. destruct Hnil. apply poll_pairs_nil.
        intros o m Hm. apply (Hall o m). apply entry_Some. eauto.
    + split; [|done]. intros _ o m Hm.
      apply entry_Some in Hm as (km' & ? & Hm). congruence.
  - intros l. rewrite poll_msgs_lookup, lookup_singleton_eq.
    destruct (msgs (uncommitted st) !! k) as [km|] eqn:E; [|done].
    case_decide; [done|]. intros [= <-]. split; [apply poll_pairs_sorted|].
    intros o m. rewrite poll_pairs_elem, entry_Some. split.
    + intros [? ?]. eauto.
    + intros [(km' & ? & ?) ?]. by simplify_eq.
Qed.

(** ** Unknown keys *)

Lemma commit_keys_other_marker (l : list (string * Z)) (st : Store) (k : string) :
  k ∉ l.*1 →
  offsets (committed (foldl commit_key st l)) !! k = offsets (committed st) !! k.
Proof.
  revert st. induction l as [|[k0 o0] l IH]; intros st Hk; [done|].
  rewrite fmap_cons in Hk. apply not_elem_of_cons in Hk as [Hne Hk].
  cbn [foldl]. rewrite IH by done. rewrite commit_key_spec.
  destruct (msgs (uncommitted st) !! k0); [|done].
  cbn. by rewrite lookup_insert_ne.
Qed.

(** A key named by no [send] request is absent from the uncommitted table. *)
Lemma never_appended_absent (evs : list (Request * bool)) (k : string) :
  (∀ m ok, (SendBody k m, ok) ∉ evs) →
  msgs (uncommitted (final evs)) !! k = None.
Proof.
  induction evs as [|[r ok] evs IH] using rev_ind; intros Hk; [done|].
  assert (msgs (uncommitted (final evs)) !! k = None) as IH'.
  { apply IH. intros m ok' Hin. apply (Hk m ok'), elem_of_app. by left. }
  rewrite final_snoc.
  destruct r as [k' m|o|o|ks];
    try (rewrite handle_uncommitted by done; exact IH').
  change (handle (final evs) (SendBody k' m, ok)) with (send ok k' m (final evs)).
  apply eq_None_not_Some. rewrite send_msgs_present. intros [->|H].
  - apply (Hk m ok), elem_of_app. right. left.
  - by rewrite IH' in H; destruct H.
Qed.

(** A key named by no [commit_offsets] request has no marker. *)
Lemma never_committed_absent (evs : list (Request * bool)) (k : string) :
  (∀ Offsets ok, (CommitOffsetsBody Offsets, ok) ∈ evs → Offsets !! k = None) →
  offsets (committed (final evs)) !! k = None.
Proof.
  induction evs as [|[r ok] evs IH] using rev_ind; intros Hk; [done|].
  assert (offsets (committed (final evs)) !! k = None) as IH'.
  { apply IH. intros O ok' Hin. apply (Hk O ok'), elem_of_app. by left. }
  rewrite final_snoc. destruct r as [k' m|o|o|ks]; [|done| |done].
  - change (handle (final evs) (SendBody k' m, ok)) with (send ok k' m (final evs)).
    by rewrite send_committed.
  - change ((handle (final evs) (CommitOffsetsBody o, ok)).1)
      with (foldl commit_key (final evs) (map_to_list o)).
    rewrite commit_keys_other_marker; [done|].
    intros Hin. apply list_elem_of_fmap in Hin as [[k' o'] [-> Hin]].
    apply elem_of_map_to_list in Hin. cbn [fst] in Hk.
    rewrite (Hk o ok) in Hin; [done|]. apply elem_of_app. right. left.
Qed.

(** C8.  After any run in which no [send] named [k], every [poll] request
    (naming [k] or not) is answered with a mapping that has no entry for
    [k]; after any run in which no [commit_offsets] named [k], every
    [list_committed_offsets] request is answered with a mapping that has no
    entry for [k] (so not [{k: 0}]).  In both cases the handler leaves the
    store as it is and returns no error of its own: its error is the one of
    [node.Reply], none when the reply is delivered. *)
Theorem unknown_key_omitted (evs : list (Request * bool)) (k : string) :
  ((∀ m ok, (SendBody k m, ok) ∉ evs) →
   ∀ Offsets reply_ok, ∃ res,
     poll reply_ok Offsets (final evs)
       = (final evs, MkOutcome (PollOkBody res) (negb reply_ok))
     ∧ res !! k = None)
  ∧ ((∀ Offsets ok, (CommitOffsetsBody Offsets, ok) ∈ evs → Offsets !! k = None) →
     ∀ Keys reply_ok, ∃ res,
       list_committed_offsets reply_ok Keys (final evs)
         = (final evs, MkOutcome (ListCommittedOffsetsOkBody res) (negb reply_ok))
       ∧ res !! k = None ∧ res !! k ≠ Some 0).
Proof.
  split.
  - intros Hk Offsets reply_ok. eexists. split; [reflexivity|].
    rewrite poll_msgs_lookup, never_appended_absent by done.
    by destruct (Offsets !! k).
  - intros Hk Keys reply_ok. eexists. split; [reflexivity|].
    rewrite list_offsets_lookup, never_committed_absent by done.
    by case_decide.
Qed.

Lemma unknown_key_omitted_witness :
  let evs := [(SendBody k1 9, true); (CommitOffsetsBody {[k1 := 0]}, true)] in
  (poll true {["k2" := 0; k1 := 0]} (final evs)).2
    = MkOutcome (PollOkBody {[k1 := [(0, 9)]]}) false
  ∧ (list_committed_offsets true ["k2"; k1] (final evs)).2
    = MkOutcome (ListCommittedOffsetsOkBody {[k1 := 0]}) false
  ∧ (∃ res, poll true {["k2" := 0; k1 := 0]} (final evs)
            = (final evs, MkOutcome (PollOkBody res) false) ∧ res !! "k2" = None)
  ∧ (∃ res, list_committed_offsets true ["k2"; k1] (final evs)
            = (final evs, MkOutcome (ListCommittedOffsetsOkBody res) false)
            ∧ res !! "k2" = None ∧ res !! "k2" ≠ Some 0).
Proof.
  intros evs. split; [vm_compute; reflexivity|]. split; [vm_compute; reflexivity|].
  destruct (unknown_key_omitted evs "k2") as [Hpoll Hlist]. split.
  - apply (Hpoll : _ → ∀ Offsets reply_ok, _). intros m ok Hin. subst evs.
    repeat (apply elem_of_cons in Hin as [Hin|Hin]; [discriminate Hin|]).
    by apply not_elem_of_nil in Hin.
  - apply (Hlist : _ → ∀ Keys reply_ok, _). intros O ok Hin. subst evs.
    apply elem_of_cons in Hin as [Hin|Hin]; [discriminate Hin|].
    apply elem_of_cons in Hin as [Hin|Hin];
      [|by apply not_elem_of_nil in Hin].
    injection Hin as -> _. reflexivity.
Defined.

(** ** The committed table inside the uncommitted table *)

Lemma commit_keys_ind_elem (P : Store → Prop) (l : list (string * Z)) (st : Store) :
  (∀ st' kv, kv ∈ l → P st' → P (commit_key st' kv)) → P st →
  P (foldl commit_key st l).
Proof.
  revert st. induction l as [|kv l IH]; intros st Hstep Hst; [done|].
  cbn [foldl]. apply IH.
  - intros st' kv' Hin. apply Hstep. by right.
  - apply Hstep; [left|done].
Qed.

Lemma commit_key_sub (st : Store) (kv : string * Z) :
  committed_sub st → committed_sub (commit_key st kv).
Proof.
  destruct kv as [k o]. intros Hst k' off m.
  rewrite commit_key_entry, commit_key_uncommitted.
  destruct (decide (k' = k ∧ off ≤ o)) as [[-> Hle]|Hn]; [|apply Hst].
  destruct (entry (uncommitted st) k off) as [m'|] eqn:E; [done|].
  intros Hc. apply Hst in Hc. congruence.
Qed.

Lemma commit_key_from (st0 st : Store) (Offsets : gmap string Z) (kv : string * Z) :
  Offsets !! kv.1 = Some kv.2 →
  committed_from st0 Offsets st → committed_from st0 Offsets (commit_key st kv).
Proof.
  destruct kv as [k o]. cbn [fst snd]. intros HO Hst k' off.
  rewrite commit_key_entry.
  destruct (decide (k' = k ∧ off ≤ o)) as [[-> Hle]|Hn]; [|apply Hst].
  destruct (entry (uncommitted st) k off) as [m'|] eqn:E; [|apply Hst].
  intros _. right. eauto.
Qed.

Lemma commit_offsets_from (st : Store) (Offsets : gmap string Z) (ok : bool) :
  committed_from st Offsets (commit_offsets ok Offsets st).1.
Proof.
  unfold commit_offsets. cbn [fst]. apply commit_keys_ind_elem.
  - intros st' [k o] Hin. apply commit_key_from.
    by apply elem_of_map_to_list in Hin.
  - intros k o H. by left.
Qed.

Lemma commit_offsets_sub (st : Store) (Offsets : gmap string Z) (ok : bool) :
  committed_sub st → committed_sub (commit_offsets ok Offsets st).1.
Proof.
  intros Hst. unfold commit_offsets. cbn [fst].
  apply commit_keys_ind; [|done]. intros. by apply commit_key_sub.
Qed.

Lemma send_offsets_below (st : Store) (k : string) (m n : Z) :
  n < int_max → offsets_below st n → offsets_below (send true k m st).1 (n + 1).
Proof.
  intros Hn Hst k'. rewrite send_next_offset_ok.
  destruct (Hst k) as [Hk _]. destruct (Hst k') as [Hk' Hentries].
  assert (wrap_int (next_offset st k + 1) = next_offset st k + 1) as Hw.
  { apply wrap_int_id. unfold int_min, int_max in *. lia. }
  split.
  - case_decide; [rewrite Hw|]; lia.
  - intros o. rewrite send_entry.
    destruct (decide (k' = k ∧ o = next_offset st k)) as [[-> ->]|Hn'].
    + intros _. rewrite decide_True by done. lia.
    + intros Ho. apply Hentries in Ho. case_decide; [subst; rewrite Hw|]; lia.
Qed.

Lemma send_sub (st : Store) (k : string) (m n : Z) :
  offsets_below st n → committed_sub st → committed_sub (send true k m st).1.
Proof.
  intros Hbelow Hst k' o m'. rewrite send_committed, send_entry. intros Hc.
  apply Hst in Hc. rewrite decide_False; [done|]. intros [-> ->].
  destruct (Hbelow k) as [_ Hentries].
  assert (is_Some (entry (uncommitted st) k (next_offset st k))) as Hs by eauto.
  apply Hentries in Hs. lia.
Qed.

Lemma offsets_below_mono (st : Store) (n n' : Z) :
  n ≤ n' → offsets_below st n → offsets_below st n'.
Proof. intros Hle Hst k. destruct (Hst k) as [? ?]. split; [lia|done]. Qed.

Lemma offsets_below_uncommitted (st st' : Store) (n : Z) :
  uncommitted st' = uncommitted st → offsets_below st n → offsets_below st' n.
Proof. unfold offsets_below, next_offset. by intros ->. Qed.

(** When every [send] reply was delivered and the counters have not
    wrapped, the committed entries are uncommitted entries, and each was
    requested by some [commit_offsets] of the run. *)
Lemma run_committed_sub (evs : list (Request * bool)) :
  (∀ k m, (SendBody k m, false) ∉ evs) →
  Z.of_nat (length evs) ≤ int_max →
  offsets_below (final evs) (Z.of_nat (length evs))
  ∧ committed_sub (final evs)
  ∧ ∀ k o, is_Some (entry (committed (final evs)) k o) →
           ∃ Offsets ok o', (CommitOffsetsBody Offsets, ok) ∈ evs
                            ∧ Offsets !! k = Some o' ∧ o ≤ o'.
Proof.
  induction evs as [|[r ok] evs IH] using rev_ind; intros Hsend Hlen.
  { split; [|split].
    - intros k. split; [done|]. intros o [? H]. done.
    - intros k o m H. done.
    - intros k o [? H]. done. }
  rewrite length_app in Hlen. cbn [length] in Hlen.
  destruct IH as (Hbelow & Hsub & Hreq).
  { intros k m Hin. apply (Hsend k m), elem_of_app. by left. }
  { lia. }
  assert (∀ k o, is_Some (entry (committed (final evs)) k o) →
            ∃ Offsets ok' o', (CommitOffsetsBody Offsets, ok') ∈ evs ++ [(r, ok)]
                              ∧ Offsets !! k = Some o' ∧ o ≤ o') as Hreq'.
  { intros k o H. destruct (Hreq k o H) as (O & ok' & o' & Hin & ?).
    exists O, ok', o'. split; [|done]. apply elem_of_app. by left. }
  rewrite final_snoc, length_app. cbn [length].
  replace (Z.of_nat (length evs + 1)) with (Z.of_nat (length evs) + 1) by lia.
  destruct r as [k m|O|O|ks].
  - destruct ok.
    2:{ destruct (Hsend k m). apply elem_of_app. right. left. }
    change (handle (final evs) (SendBody k m, true)) with (send true k m (final evs)).
    split; [|split].
    + apply send_offsets_below; [lia|done].
    + by eapply send_sub.
    + intros k' o. rewrite send_committed. apply Hreq'.
  - split; [|by split]. eapply offsets_below_mono; [|done]. lia.
  - change (handle (final evs) (CommitOffsetsBody O, ok))
      with (commit_offsets ok O (final evs)).
    split; [|split].
    + apply (offsets_below_uncommitted (final evs));
        [by rewrite commit_offsets_uncommitted|].
      eapply offsets_below_mono; [|done]. lia.
    + by apply commit_offsets_sub.
    + intros k o H. apply commit_offsets_from in H as [H|(o' & HO & Hle)].
      * by apply Hreq'.
      * exists O, ok, o'. split; [|done]. apply elem_of_app. right. left.
  - split; [|by split]. eapply offsets_below_mono; [|done]. lia.
Qed.

(** A key with committed messages has a marker. *)
Lemma final_marker_present (evs : list (Request * bool)) (k : string) :
  is_Some (msgs (committed (final evs)) !! k) →
  is_Some (offsets (committed (final evs)) !! k).
Proof.
  revert k. apply (final_ind (λ st, ∀ k, is_Some (msgs (committed st) !! k) →
                                         is_Some (offsets (committed st) !! k))).
  - intros k [? H]. done.
  - intros st [r ok] Hst. destruct r as [k m|O|O|ks]; [|done| |done].
    + change (handle st (SendBody k m, ok)) with (send ok k m st).
      by rewrite send_committed.
    + change ((handle st (CommitOffsetsBody O, ok)).1)
        with (foldl commit_key st (map_to_list O)).
      apply commit_keys_ind; [|done]. clear. intros st [k o] Hst k'.
      rewrite commit_key_spec.
      destruct (msgs (uncommitted st) !! k) as [ukm|]; [|apply Hst]. cbn.
      destruct (decide (k' = k)) as [->|Hne].
      * rewrite lookup_insert_eq. eauto.
      * rewrite lookup_insert_ne by done. intros H. apply Hst.
        case_decide; [done|]. by rewrite lookup_insert_ne in H.
Qed.

(** C4, as amended.  In every store reached from the empty one by a run
    whose appends were all acknowledged, each (offset, message) entry of
    the committed table for a key [k] is an entry of the uncommitted table
    for [k] with the same message, [k] has a marker, and the offset is at or
    below the offset that some [commit_offsets] request of the run asked
    for [k].  That request need not be the most recent one. *)
Theorem committed_entries_bounded (evs : list (Request * bool)) (k : string)
    (o m : Z) :
  (∀ k' m', (SendBody k' m', false) ∉ evs) →
  Z.of_nat (length evs) ≤ int_max →
  entry (committed (final evs)) k o = Some m →
  entry (uncommitted (final evs)) k o = Some m
  ∧ is_Some (offsets (committed (final evs)) !! k)
  ∧ ∃ Offsets ok o', (CommitOffsetsBody Offsets, ok) ∈ evs
                     ∧ Offsets !! k = Some o' ∧ o ≤ o'.
Proof.
  intros Hsend Hlen Hc.
  destruct (run_committed_sub evs Hsend Hlen) as (_ & Hsub & Hreq).
  split; [by apply Hsub|]. split; [|apply Hreq; eauto].
  apply final_marker_present. apply entry_Some in Hc as (km & -> & _). eauto.
Qed.

Lemma committed_entries_bounded_witness :
  let evs := [(SendBody k1 9, true); (SendBody k1 5, true);
              (CommitOffsetsBody {[k1 := 1]}, true);
              (CommitOffsetsBody {[k1 := 0]}, true)] in
  entry (committed (final evs)) k1 1 = Some 5
  ∧ entry (uncommitted (final evs)) k1 1 = Some 5.
Proof.
  intros evs.
  assert (entry (committed (final evs)) k1 1 = Some 5) as Hc
    by (vm_compute; reflexivity).
  split; [exact Hc|].
  refine (proj1 (committed_entries_bounded evs k1 1 5 _ _ Hc)).
  - intros k' m' Hin. subst evs.
    repeat (apply elem_of_cons in Hin as [Hin|Hin]; [discriminate Hin|]).
    by apply not_elem_of_nil in Hin.
  - vm_compute. discriminate.
Defined.

(** C4 as stated fails after a commit below an earlier one: the entry at
    offset [1] stays committed while the marker is back at [0]. *)
Lemma committed_entry_above_marker :
  let evs := [(SendBody k1 9, true); (SendBody k1 5, true);
              (CommitOffsetsBody {[k1 := 1]}, true);
              (CommitOffsetsBody {[k1 := 0]}, true)] in
  entry (committed (final evs)) k1 1 = Some 5
  ∧ offsets (committed (final evs)) !! k1 = Some 0
  ∧ ¬ (∀ o m c, entry (committed (final evs)) k1 o = Some m →
                offsets (committed (final evs)) !! k1 = Some c → o ≤ c).
Proof.
  intros evs.
  assert (entry (committed (final evs)) k1 1 = Some 5) as Hc
    by (vm_compute; reflexivity).
  assert (offsets (committed (final evs)) !! k1 = Some 0) as Hm
    by (vm_compute; reflexivity).
  split; [exact Hc|]. split; [exact Hm|].
  intros H. specialize (H 1 5 0 Hc Hm). lia.
Qed.

(** An unacknowledged append can be overwritten after it was committed:
    the committed copy then differs from the uncommitted entry. *)
Example committed_copy_of_overwritten_entry :
  let evs := [(SendBody k1 9, false); (CommitOffsetsBody {[k1 := 0]}, true);
              (SendBody k1 5, true)] in
  entry (committed (final evs)) k1 0 = Some 9
  ∧ entry (uncommitted (final evs)) k1 0 = Some 5.
Proof. vm_compute. done. Qed.

(** ** Iteration order

    Go visits the entries of a map in an unspecified order.  The handlers
    above traverse [map_to_list]; any other traversal of the same entries
    gives the same store and the same reply. *)

Lemma foldl_perm_distinct {A B K : Type} (key : A → K) (f : B → A → B) :
  (∀ b x y, key x ≠ key y → f (f b x) y = f (f b y) x) →
  ∀ l1 l2, l1 ≡ₚ l2 → NoDup (key <$> l1) → ∀ b, foldl f b l1 = foldl f b l2.
Proof.
  intros Hcomm l1 l2 Hperm.
  induction Hperm as [|x l l' Hperm IH|x y l|l l' l'' H1 IH1 H2 IH2];
    intros Hnd b.
  - done.
  - rewrite fmap_cons in Hnd. apply NoDup_cons in Hnd as [_ Hnd].
    cbn [foldl]. by apply IH.
  - rewrite !fmap_cons in Hnd. apply NoDup_cons in Hnd as [Hne _].
    cbn [foldl]. rewrite Hcomm; [done|]. intros E. apply Hne. rewrite E. left.
  - rewrite IH1 by done. apply IH2. by rewrite <- H1.
Qed.

Lemma store_eq (st1 st2 : Store) :
  uncommitted st1 = uncommitted st2 →
  offsets (committed st1) = offsets (committed st2) →
  msgs (committed st1) = msgs (committed st2) →
  st1 = st2.
Proof.
  destruct st1 as [u1 [o1 m1]], st2 as [u2 [o2 m2]]. cbn. by intros -> -> ->.
Qed.

Lemma NoDup_fmap_filter_fst (l : list (Z * Z)) (ro : Z) :
  NoDup l.*1 → NoDup (filter (λ e : Z * Z, e.1 ≤ ro) l).*1.
Proof.
  induction l as [|[o m] l IH]; [done|]. rewrite fmap_cons.
  intros [Hnotin Hnd]%NoDup_cons. rewrite filter_cons.
  case_decide; [|by apply IH]. rewrite fmap_cons. apply NoDup_cons.
  split; [|by apply IH]. intros Hin. apply Hnotin.
  apply list_elem_of_fmap in Hin as [e [-> He]].
  apply list_elem_of_fmap. exists e. split; [done|].
  by apply list_elem_of_filter in He as [_ ?].
Qed.

(** Inner loop of [commit_offsets]. *)
Lemma commit_entries_perm (key : string) (ro : Z) (l1 l2 : list (Z * Z))
    (st : Store) :
  NoDup l1.*1 → l1 ≡ₚ l2 →
  foldl (commit_entry key ro) st l1 = foldl (commit_entry key ro) st l2.
Proof.
  intros Hnd Hperm.
  assert (NoDup l2.*1) as Hnd2 by by rewrite <- Hperm.
  assert (filter (λ e : Z * Z, e.1 ≤ ro) l1 ≡ₚ filter (λ e : Z * Z, e.1 ≤ ro) l2)
    as HF by by rewrite Hperm.
  apply store_eq.
  - by rewrite !commit_entries_uncommitted.
  - by rewrite !commit_entries_offsets.
  - rewrite !commit_entries_msgs by done.
    rewrite (list_to_map_proper _ _ (NoDup_fmap_filter_fst l1 ro Hnd) HF).
    destruct (decide (filter (λ e : Z * Z, e.1 ≤ ro) l1 = [])) as [E|E].
    + rewrite E in HF. apply Permutation_nil in HF. by rewrite decide_True.
    + rewrite decide_False; [done|]. intros E2. rewrite E2 in HF.
      by apply Permutation_nil_r in HF.
Qed.

(** Two iterations of the outer loop of [commit_offsets] on different keys
    commute. *)
Lemma commit_key_comm (st : Store) (x y : string * Z) :
  x.1 ≠ y.1 → commit_key (commit_key st x) y = commit_key (commit_key st y) x.
Proof.
  destruct x as [kx ox], y as [ky oy]. cbn [fst]. intros Hne.
  rewrite (commit_key_spec (commit_key st (kx, ox))),
          (commit_key_spec (commit_key st (ky, oy))).
  rewrite !commit_key_uncommitted, !(commit_key_spec st).
  destruct (msgs (uncommitted st) !! kx) as [ux|] eqn:Ex;
    destruct (msgs (uncommitted st) !! ky) as [uy|] eqn:Ey;
    cbn [uncommitted committed offsets msgs]; try done.
  f_equal. f_equal; [by apply insert_insert_ne|].
  repeat case_decide; try done;
    rewrite ?lookup_insert_ne by done; try done.
  by apply insert_insert_ne.
Qed.

(** Outer loop of [commit_offsets]. *)
Lemma commit_keys_perm (l1 l2 : list (string * Z)) (st : Store) :
  NoDup l1.*1 → l1 ≡ₚ l2 → foldl commit_key st l1 = foldl commit_key st l2.
Proof.
  intros Hnd Hperm. apply (foldl_perm_distinct fst); [|done..].
  intros. by apply commit_key_comm.
Qed.

(** First inner loop of [poll] followed by [sort.Ints]. *)
Lemma sorted_scan_perm (s : Z) (l1 l2 : list Z) :
  l1 ≡ₚ l2 → sort_Ints (poll_scan s l1) = sort_Ints (poll_scan s l2).
Proof.
  intros Hperm. apply (StronglySorted_unique Z.le); try apply sort_Ints_sorted.
  by rewrite !sort_Ints_perm, !poll_scan_filter, Hperm.
Qed.

(** Outer loop of [poll]. *)
Lemma poll_keys_perm (u : logs) (l1 l2 : list (string * Z))
    (acc : gmap string (list (Z * Z))) :
  NoDup l1.*1 → l1 ≡ₚ l2 → foldl (poll_key u) acc l1 = foldl (poll_key u) acc l2.
Proof.
  intros Hnd Hperm. apply map_eq. intros k.
  rewrite !poll_keys_lookup; [|by rewrite <- Hperm|done].
  by rewrite (list_to_map_proper l1 l2).
Qed.

(** * Further properties of the handlers *)

(** ** [commit_offsets] on a request with several keys *)

Lemma commit_key_other (st : Store) (kv : string * Z) (k : string) :
  k ≠ kv.1 →
  offsets (committed (commit_key st kv)) !! k = offsets (committed st) !! k
  ∧ msgs (committed (commit_key st kv)) !! k = msgs (committed st) !! k.
Proof.
  destruct kv as [k0 o0]. cbn [fst]. intros Hne. rewrite commit_key_spec.
  destruct (msgs (uncommitted st) !! k0) as [ukm|]; [|done]. cbn.
  rewrite lookup_insert_ne by done. split; [done|].
  case_decide; [done|]. by rewrite lookup_insert_ne.
Qed.

(** What [commit_key] leaves at [k] depends on the uncommitted table and on
    what was committed at [k] only. *)
Lemma commit_key_local (st1 st2 : Store) (k : string) (o : Z) :
  uncommitted st1 = uncommitted st2 →
  offsets (committed st1) !! k = offsets (committed st2) !! k →
  msgs (committed st1) !! k = msgs (committed st2) !! k →
  offsets (committed (commit_key st1 (k, o))) !! k
    = offsets (committed (commit_key st2 (k, o))) !! k
  ∧ msgs (committed (commit_key st1 (k, o))) !! k
    = msgs (committed (commit_key st2 (k, o))) !! k.
Proof.
  intros Hu Ho Hm. rewrite !commit_key_spec, Hu.
  destruct (msgs (uncommitted st2) !! k) as [ukm|]; [|done]. cbn.
  rewrite !lookup_insert_eq. split; [done|].
  case_decide; [done|]. by rewrite !lookup_insert_eq, Hm.
Qed.

(** The outer loop, key by key, for any traversal without repeated keys. *)
Lemma commit_keys_lookup (l : list (string * Z)) (st : Store) (k : string) :
  NoDup l.*1 →
  offsets (committed (foldl commit_key st l)) !! k
    = match (list_to_map l : gmap string Z) !! k with
      | Some o => offsets (committed (commit_key st (k, o))) !! k
      | None => offsets (committed st) !! k
      end
  ∧ msgs (committed (foldl commit_key st l)) !! k
    = match (list_to_map l : gmap string Z) !! k with
      | Some o => msgs (committed (commit_key st (k, o))) !! k
      | None => msgs (committed st) !! k
      end.
Proof.
  revert st. induction l as [|[k0 o0] l IH]; intros st Hnd; [done|].
  rewrite fmap_cons in Hnd. apply NoDup_cons in Hnd as [Hnotin Hnd].
  cbn [foldl]. rewrite list_to_map_cons.
  destruct (IH (commit_key st (k0, o0)) Hnd) as [IHo IHm]. rewrite IHo, IHm.
  destruct (decide (k = k0)) as [->|Hne].
  - rewrite lookup_insert_eq.
    by rewrite (not_elem_of_list_to_map_1 l k0) by done.
  - rewrite lookup_insert_ne by done.
    destruct (commit_key_other st (k0, o0) k Hne) as [Ho Hm].
    destruct (list_to_map l !! k) as [o|]; [|done].
    apply commit_key_local; [apply commit_key_uncommitted|done..].
Qed.

Lemma commit_offsets_lookup (ok : bool) (Offsets : gmap string Z) (st : Store)
    (k : string) :
  offsets (committed (commit_offsets ok Offsets st).1) !! k
    = match Offsets !! k with
      | Some o => offsets (committed (commit_key st (k, o))) !! k
      | None => offsets (committed st) !! k
      end
  ∧ msgs (committed (commit_offsets ok Offsets st).1) !! k
    = match Offsets !! k with
      | Some o => msgs (committed (commit_key st (k, o))) !! k
      | None => msgs (committed st) !! k
      end.
Proof.
  unfold commit_offsets. cbn [fst].
  destruct (commit_keys_lookup (map_to_list Offsets) st k) as [Ho Hm];
    [apply NoDup_fst_map_to_list|].
  rewrite list_to_map_to_list in Ho, Hm. by split.
Qed.

Lemma entry_lookup (t1 t2 : logs) (k : string) (o : Z) :
  msgs t1 !! k = msgs t2 !! k → entry t1 k o = entry t2 k o.
Proof. unfold entry. by intros ->. Qed.

Lemma commit_offsets_marker (st : Store) (Offsets : gmap string Z) (ok : bool)
    (k : string) :
  offsets (committed (commit_offsets ok Offsets st).1) !! k
  = match Offsets !! k, msgs (uncommitted st) !! k with
    | Some o, Some _ => Some o
    | _, _ => offsets (committed st) !! k
    end.
Proof.
  destruct (commit_offsets_lookup ok Offsets st k) as [Ho _].
  rewrite Ho. destruct (Offsets !! k) as [o|]; [|done].
  rewrite commit_key_spec.
  destruct (msgs (uncommitted st) !! k); [|done]. cbn.
  apply lookup_insert_eq.
Qed.

Lemma commit_offsets_entry (st : Store) (Offsets : gmap string Z) (ok : bool)
    (k : string) (off : Z) :
  entry (committed (commit_offsets ok Offsets st).1) k off
  = match Offsets !! k with
    | Some o =>
        match (if decide (off ≤ o) then entry (uncommitted st) k off
               else None) with
        | Some m => Some m
        | None => entry (committed st) k off
        end
    | None => entry (committed st) k off
    end.
Proof.
  destruct (commit_offsets_lookup ok Offsets st k) as [_ Hm].
  destruct (Offsets !! k) as [o|].
  2:{ by apply entry_lookup. }
  rewrite (entry_lookup _ (committed (commit_key st (k, o))) _ _ Hm).
  rewrite commit_key_entry.
  destruct (decide (off ≤ o)) as [Hle|Hgt].
  - by rewrite decide_True.
  - by rewrite decide_False by tauto.
Qed.

(** X1.  [commit_offsets] on any request acts key by key: a key that the
    request names with offset [o] and that the uncommitted table holds gets
    the marker [o] and a copy of each of its uncommitted entries at or below
    [o], over what was committed; nothing above [o] is copied, and a key
    that is not named, or not in the uncommitted table, keeps its marker
    and its committed entries. *)
Theorem commit_offsets_effect (st : Store) (Offsets : gmap string Z) (ok : bool)
    (k : string) :
  offsets (committed (commit_offsets ok Offsets st).1) !! k
    = match Offsets !! k, msgs (uncommitted st) !! k with
      | Some o, Some _ => Some o
      | _, _ => offsets (committed st) !! k
      end
  ∧ ∀ off,
      entry (committed (commit_offsets ok Offsets st).1) k off
      = match Offsets !! k with
        | Some o =>
            match (if decide (off ≤ o) then entry (uncommitted st) k off
                   else None) with
            | Some m => Some m
            | None => entry (committed st) k off
            end
        | None => entry (committed st) k off
        end.
Proof.
  split; [apply commit_offsets_marker|]. intros off. apply commit_offsets_entry.
Qed.

(** X2.  Running [commit_offsets] twice in a row on the same request,
    whatever keys it names, leaves the same store as running it once. *)
Theorem commit_offsets_idempotent (st : Store) (Offsets : gmap string Z)
    (ok1 ok2 : bool) :
  (commit_offsets ok2 Offsets (commit_offsets ok1 Offsets st).1).1
    = (commit_offsets ok1 Offsets st).1.
Proof.
  set (st1 := (commit_offsets ok1 Offsets st).1).
  assert (uncommitted st1 = uncommitted st) as Hu
    by apply commit_offsets_uncommitted.
  assert (∀ k, offsets (committed (commit_offsets ok2 Offsets st1).1) !! k
               = offsets (committed st1) !! k
             ∧ msgs (committed (commit_offsets ok2 Offsets st1).1) !! k
               = msgs (committed st1) !! k) as Hk.
  { intros k.
    destruct (commit_offsets_lookup ok2 Offsets st1 k) as [Ho2 Hm2].
    destruct (commit_offsets_lookup ok1 Offsets st k) as [Ho1 Hm1].
    fold st1 in Ho1, Hm1. rewrite Ho2, Hm2.
    destruct (Offsets !! k) as [o|]; [|done].
    destruct (commit_key_local st1 (commit_key st (k, o)) k o) as [Ho Hm].
    - by rewrite Hu, commit_key_uncommitted.
    - done.
    - done.
    - rewrite Ho, Hm, commit_key_idemp. by rewrite Ho1, Hm1. }
  apply store_eq.
  - by rewrite commit_offsets_uncommitted.
  - apply map_eq. intros k. apply Hk.
  - apply map_eq. intros k. apply Hk.
Qed.

(** X3.  Commits of two different keys do not interfere: one request
    naming both, and the two single-key requests in either order, leave
    the same store. *)
Theorem commit_two_keys (st : Store) (ka kb : string) (oa ob : Z)
    (ok ok1 ok2 : bool) :
  ka ≠ kb →
  (commit_offsets ok {[ka := oa; kb := ob]} st).1
    = (commit_offsets ok2 {[kb := ob]} (commit_offsets ok1 {[ka := oa]} st).1).1
  ∧ (commit_offsets ok2 {[kb := ob]} (commit_offsets ok1 {[ka := oa]} st).1).1
    = (commit_offsets ok1 {[ka := oa]} (commit_offsets ok2 {[kb := ob]} st).1).1.
Proof.
  intros Hne. rewrite !commit_offsets_singleton. cbn [fst]. split.
  - unfold commit_offsets. cbn [fst].
    rewrite (commit_keys_perm _ [(ka, oa); (kb, ob)]); [done| |].
    + apply NoDup_fst_map_to_list.
    + rewrite map_to_list_insert by by rewrite lookup_singleton_ne.
      by rewrite map_to_list_singleton.
  - by apply commit_key_comm.
Qed.

Lemma commit_two_keys_witness :
  let st := final [(SendBody k1 9, true); (SendBody "k2" 5, true)] in
  k1 ≠ "k2"
  ∧ (commit_offsets true {[k1 := 0; "k2" := 0]} st).1
    = (commit_offsets true {["k2" := 0]} (commit_offsets true {[k1 := 0]} st).1).1.
Proof.
  intros st. assert (k1 ≠ "k2") as Hne by discriminate.
  split; [exact Hne|].
  exact (proj1 (commit_two_keys st k1 "k2" 0 0 true true true Hne)).
Defined.

(** X4.  After [commit_offsets] on [{k: o1}] and then on [{k: o2}], every
    uncommitted entry of [k] at or below the larger of the two offsets is
    committed: a commit below an earlier one moves the marker back but
    takes no message out of the committed table. *)
Theorem commit_twice_keeps_higher (st : Store) (k : string) (o1 o2 off m : Z)
    (ok1 ok2 : bool) :
  entry (uncommitted st) k off = Some m →
  off ≤ Z.max o1 o2 →
  entry (committed
           (commit_offsets ok2 {[k := o2]} (commit_offsets ok1 {[k := o1]} st).1).1)
        k off = Some m.
Proof.
  intros Hm Hle. rewrite !commit_offsets_singleton. cbn [fst].
  rewrite commit_key_entry, commit_key_uncommitted, Hm.
  destruct (decide (off ≤ o2)) as [H2|H2].
  - by rewrite decide_True.
  - rewrite decide_False by tauto.
    rewrite commit_key_entry, Hm. rewrite decide_True; [done|]. split; [done|lia].
Qed.

Lemma commit_twice_keeps_higher_witness :
  let st := final [(SendBody k1 9, true); (SendBody k1 5, true)] in
  entry (uncommitted st) k1 1 = Some 5
  ∧ 1 ≤ Z.max 1 0
  ∧ entry (committed
             (commit_offsets true {[k1 := 0]} (commit_offsets true {[k1 := 1]} st).1).1)
          k1 1 = Some 5.
Proof.
  intros st.
  assert (entry (uncommitted st) k1 1 = Some 5) as Hm by (vm_compute; reflexivity).
  assert (1 ≤ Z.max 1 0) as Hle by (vm_compute; discriminate).
  split; [exact Hm|]. split; [exact Hle|].
  exact (commit_twice_keeps_higher st k1 1 0 1 5 true true Hm Hle).
Defined.

(** ** [poll] on a request with several keys *)

(** X5.  For any request, the reply of [poll] has an entry for [k] exactly
    when the request names [k] with some offset [s] and the uncommitted
    table stores an offset of [k] at or after [s]; the entry is never an
    empty list, and it lists exactly the stored pairs of [k] at or after
    [s], in strictly ascending order of offset. *)
Theorem poll_reply_general (st : Store) (Offsets : gmap string Z) (k : string) :
  (∀ l, poll_msgs (uncommitted st) Offsets !! k = Some l →
        l ≠ []
        ∧ ∃ s, Offsets !! k = Some s
               ∧ StronglySorted Z.lt l.*1
               ∧ ∀ o m, (o, m) ∈ l ↔ entry (uncommitted st) k o = Some m ∧ s ≤ o)
  ∧ (poll_msgs (uncommitted st) Offsets !! k = None
     ↔ ∀ s, Offsets !! k = Some s →
            ∀ o m, entry (uncommitted st) k o = Some m → o < s).
Proof.
  rewrite poll_msgs_lookup. split.
  - intros l Hl. destruct (Offsets !! k) as [s|]; [|done].
    destruct (msgs (uncommitted st) !! k) as [km|] eqn:E; [|done].
    case_decide as Hnil; [done|]. injection Hl as <-. split; [done|].
    exists s. split; [done|]. split; [apply poll_pairs_sorted|].
    intros o m. rewrite poll_pairs_elem, entry_Some. split.
    + intros [? ?]. eauto.
    + intros [(km' & ? & ?) ?]. by simplify_eq.
  - destruct (Offsets !! k) as [s|]; [|done].
    destruct (msgs (uncommitted st) !! k) as [km|] eqn:E.
    + case_decide as Hnil.
      * split; [|done]. intros _ s' [= <-] o m Hm.
        apply entry_Some in Hm as (km' & ? & Hm). simplify_eq.
        by apply (proj1 (poll_pairs_nil km s) Hnil o m).
      * split; [done|]. intros Hall. destruct Hnil. apply poll_pairs_nil.
        intros o m Hm. apply (Hall s eq_refl o m). apply entry_Some. eauto.
    + split; [|done]. intros _ s' _ o m Hm.
      apply entry_Some in Hm as (km' & ? & Hm). congruence.
Qed.

(** ** [list_committed_offsets] on any list of keys *)

(** X6.  The reply of [list_committed_offsets] maps [k] to [o] exactly
    when [k] is among the requested keys and [o] is the marker recorded for
    [k]; an empty list of keys gives the empty mapping. *)
Theorem list_reply_general (st : Store) (Keys : list string) (ok : bool)
    (k : string) (o : Z) :
  list_committed_offsets ok Keys st
    = (st, MkOutcome (ListCommittedOffsetsOkBody
                        (list_offsets (committed st) Keys)) (negb ok))
  ∧ (list_offsets (committed st) Keys !! k = Some o
     ↔ k ∈ Keys ∧ offsets (committed st) !! k = Some o)
  ∧ list_offsets (committed st) [] = ∅.
Proof.
  split; [done|]. split; [|done]. rewrite list_offsets_lookup.
  case_decide; [tauto|]. split; [done|tauto].
Qed.

(** X7.  The reply of [list_committed_offsets] depends on the set of the
    requested keys only: their order and repetitions do not matter. *)
Theorem list_reply_set (c : logs) (Keys1 Keys2 : list string) :
  (∀ k, k ∈ Keys1 ↔ k ∈ Keys2) →
  list_offsets c Keys1 = list_offsets c Keys2.
Proof.
  intros Hset. apply map_eq. intros k. rewrite !list_offsets_lookup.
  destruct (decide (k ∈ Keys1)) as [H1|H1].
  - by rewrite decide_True by by apply Hset.
  - rewrite decide_False; [done|]. by rewrite <- Hset.
Qed.

Lemma list_reply_set_witness :
  (∀ k, k ∈ [k1; "k2"; k1] ↔ k ∈ ["k2"; k1])
  ∧ list_offsets (committed (final [(SendBody k1 9, true);
                                    (CommitOffsetsBody {[k1 := 0]}, true)]))
                 [k1; "k2"; k1]
    = list_offsets (committed (final [(SendBody k1 9, true);
                                      (CommitOffsetsBody {[k1 := 0]}, true)]))
                   ["k2"; k1].
Proof.
  assert (∀ k, k ∈ [k1; "k2"; k1] ↔ k ∈ ["k2"; k1]) as Hset.
  { intros k. rewrite !elem_of_cons. pose proof (not_elem_of_nil k). tauto. }
  split; [exact Hset|]. exact (list_reply_set _ _ _ Hset).
Defined.

(** ** [send] and the rest of the store *)

Lemma send_offsets_present (ok : bool) (k k' : string) (m : Z) (st : Store) :
  is_Some (offsets (uncommitted (send ok k m st).1) !! k')
  ↔ k' = k ∨ is_Some (offsets (uncommitted st) !! k').
Proof.
  unfold send. destruct (decide (k' = k)) as [->|Hne].
  - destruct ok; cbn; rewrite ?lookup_insert_eq, ?ensure_lookup;
      split; eauto.
  - destruct ok; cbn; rewrite ?lookup_insert_ne, ensure_lookup_ne by done;
      split; [by right|by intros [?|?]|by right|by intros [?|?]].
Qed.

Lemma send_other_key (ok : bool) (k k' : string) (m : Z) (st : Store) :
  k' ≠ k →
  msgs (uncommitted (send ok k m st).1) !! k' = msgs (uncommitted st) !! k'
  ∧ offsets (uncommitted (send ok k m st).1) !! k' = offsets (uncommitted st) !! k'.
Proof.
  intros Hne. split.
  - rewrite send_msgs. by rewrite lookup_insert_ne.
  - unfold send. destruct ok; cbn;
      by rewrite ?lookup_insert_ne, ensure_lookup_ne by done.
Qed.

(** X8.  [send] for [k] writes one slot only: the committed table, the
    messages and counter of every other key, and every other offset of [k]
    are as before, whether or not the reply is delivered. *)
Theorem send_frame (st : Store) (k : string) (m : Z) (ok : bool) :
  committed (send ok k m st).1 = committed st
  ∧ (∀ k' o, k' ≠ k ∨ o ≠ next_offset st k →
             entry (uncommitted (send ok k m st).1) k' o
             = entry (uncommitted st) k' o)
  ∧ (∀ k', k' ≠ k →
           msgs (uncommitted (send ok k m st).1) !! k' = msgs (uncommitted st) !! k'
           ∧ offsets (uncommitted (send ok k m st).1) !! k'
             = offsets (uncommitted st) !! k').
Proof.
  split; [apply send_committed|]. split.
  - intros k' o Hne. rewrite send_entry. rewrite decide_False; [done|]. tauto.
  - intros k' Hne. by apply send_other_key.
Qed.

(** X9.  A message is readable as soon as [send] has stored it: a [poll]
    of [k] from any offset at or below the one [send] used returns the pair
    of that offset and the message, whether or not the reply of [send] was
    delivered. *)
Theorem send_then_poll (st : Store) (k : string) (m s : Z) (ok : bool) :
  s ≤ next_offset st k →
  ∃ l, poll_msgs (uncommitted (send ok k m st).1) {[k := s]} !! k = Some l
       ∧ (next_offset st k, m) ∈ l.
Proof.
  intros Hs. rewrite poll_msgs_lookup, lookup_singleton_eq, send_msgs.
  rewrite lookup_insert_eq.
  set (km := <[next_offset st k := m]> (default ∅ (msgs (uncommitted st) !! k))).
  assert ((next_offset st k, m) ∈ poll_pairs km s) as Hin.
  { apply poll_pairs_elem. split; [apply lookup_insert_eq|done]. }
  case_decide as Hnil.
  - rewrite Hnil in Hin. by apply not_elem_of_nil in Hin.
  - eauto.
Qed.

Lemma send_then_poll_witness :
  let st := final [(SendBody k1 9, true)] in
  1 ≤ next_offset st k1
  ∧ ∃ l, poll_msgs (uncommitted (send true k1 5 st).1) {[k1 := 1]} !! k1 = Some l
         ∧ (next_offset st k1, 5) ∈ l.
Proof.
  intros st. assert (1 ≤ next_offset st k1) as Hs by (vm_compute; discriminate).
  split; [exact Hs|]. exact (send_then_poll st k1 5 1 true Hs).
Defined.

(** ** Nothing is deleted *)

Lemma commit_offsets_keeps (st : Store) (Offsets : gmap string Z) (ok : bool)
    (k : string) (o : Z) :
  (is_Some (entry (committed st) k o) →
   is_Some (entry (committed (commit_offsets ok Offsets st).1) k o))
  ∧ (is_Some (offsets (committed st) !! k) →
     is_Some (offsets (committed (commit_offsets ok Offsets st).1) !! k)).
Proof.
  split.
  - rewrite commit_offsets_entry. intros H.
    destruct (Offsets !! k) as [o'|]; [|done].
    by destruct (if decide (o ≤ o') then entry (uncommitted st) k o else None).
  - rewrite commit_offsets_marker. intros H.
    destruct (Offsets !! k) as [o'|]; [|done].
    by destruct (msgs (uncommitted st) !! k).
Qed.

(** X10.  No handler deletes anything: after any request, whatever its
    reply, every stored offset of either table is still stored, and every
    key that had a counter or a marker still has one. *)
Theorem handle_never_deletes (st : Store) (ev : Request * bool) (k : string)
    (o : Z) :
  (is_Some (entry (uncommitted st) k o) →
   is_Some (entry (uncommitted (handle st ev).1) k o))
  ∧ (is_Some (entry (committed st) k o) →
     is_Some (entry (committed (handle st ev).1) k o))
  ∧ (is_Some (offsets (uncommitted st) !! k) →
     is_Some (offsets (uncommitted (handle st ev).1) !! k))
  ∧ (is_Some (offsets (committed st) !! k) →
     is_Some (offsets (committed (handle st ev).1) !! k)).
Proof.
  destruct ev as [r ok]. destruct r as [k' m|O|O|ks]; [|done| |done].
  - change (handle st (SendBody k' m, ok)) with (send ok k' m st).
    rewrite send_committed, send_entry, send_offsets_present.
    split; [|by eauto]. intros H. by case_decide.
  - change (handle st (CommitOffsetsBody O, ok)) with (commit_offsets ok O st).
    rewrite commit_offsets_uncommitted.
    destruct (commit_offsets_keeps st O ok k o) as [? ?]. by eauto.
Qed.

(** ** Shape of the reachable stores *)

Lemma final_uncommitted_shape (evs : list (Request * bool)) (k : string) :
  (is_Some (msgs (uncommitted (final evs)) !! k)
   ↔ is_Some (offsets (uncommitted (final evs)) !! k))
  ∧ msgs (uncommitted (final evs)) !! k ≠ Some ∅.
Proof.
  revert k.
  apply (final_ind (λ st, ∀ k, (is_Some (msgs (uncommitted st) !! k)
                                ↔ is_Some (offsets (uncommitted st) !! k))
                               ∧ msgs (uncommitted st) !! k ≠ Some ∅)).
  - intros k. cbn. rewrite !lookup_empty. split; [|done].
    split; intros [? ?]; done.
  - intros st [r ok] Hst k.
    destruct r as [k' m|O|O|ks];
      try (rewrite handle_uncommitted by done; apply Hst).
    change (handle st (SendBody k' m, ok)) with (send ok k' m st).
    destruct (Hst k) as [Hiff Hne]. split.
    + rewrite send_msgs_present, send_offsets_present. tauto.
    + rewrite send_msgs. destruct (decide (k = k')) as [->|Hk].
      * rewrite lookup_insert_eq. intros [= H].
        by apply insert_non_empty in H.
      * by rewrite lookup_insert_ne.
Qed.

Lemma final_committed_nonempty (evs : list (Request * bool)) (k : string) :
  msgs (committed (final evs)) !! k ≠ Some ∅.
Proof.
  revert k.
  apply (final_ind (λ st, ∀ k, msgs (committed st) !! k ≠ Some ∅)).
  - intros k. cbn. by rewrite lookup_empty.
  - intros st [r ok] Hst. destruct r as [k' m|O|O|ks]; [|done| |done].
    + change (handle st (SendBody k' m, ok)) with (send ok k' m st).
      by rewrite send_committed.
    + change ((handle st (CommitOffsetsBody O, ok)).1)
        with (foldl commit_key st (map_to_list O)).
      apply commit_keys_ind; [|done]. clear. intros st [k o] Hst k'.
      rewrite commit_key_spec.
      destruct (msgs (uncommitted st) !! k) as [ukm|]; [|apply Hst]. cbn.
      case_decide as HF; [apply Hst|].
      destruct (decide (k' = k)) as [->|Hne].
      * rewrite lookup_insert_eq. intros [= H].
        by apply map_positive_l in H.
      * rewrite lookup_insert_ne by done. apply Hst.
Qed.

(** X11.  In every store reached by a run, a key has uncommitted messages
    exactly when it has a counter; a key with committed messages has a
    marker, and a key with a marker has uncommitted messages; and no key of
    either table has an empty message map. *)
Theorem reachable_store_shape (evs : list (Request * bool)) (k : string) :
  (is_Some (msgs (uncommitted (final evs)) !! k)
   ↔ is_Some (offsets (uncommitted (final evs)) !! k))
  ∧ (is_Some (msgs (committed (final evs)) !! k)
     → is_Some (offsets (committed (final evs)) !! k))
  ∧ (is_Some (offsets (committed (final evs)) !! k)
     → is_Some (msgs (uncommitted (final evs)) !! k))
  ∧ msgs (uncommitted (final evs)) !! k ≠ Some ∅
  ∧ msgs (committed (final evs)) !! k ≠ Some ∅.
Proof.
  destruct (final_uncommitted_shape evs k) as [Hiff Hne].
  split; [exact Hiff|]. split; [apply final_marker_present|].
  split; [|split; [exact Hne|apply final_committed_nonempty]].
  intros H. apply (final_committed_known evs k). by left.
Qed.

(** ** Stored offsets are gapless *)

Lemma send_offsets_dense (st : Store) (k : string) (m n : Z) (ok : bool) :
  n < int_max → offsets_dense st n → offsets_dense (send ok k m st).1 (n + 1).
Proof.
  intros Hn Hst k'. destruct (Hst k) as (Hk & _ & _).
  destruct (Hst k') as (Hk' & Hle & Hdense).
  assert (wrap_int (next_offset st k + 1) = next_offset st k + 1) as Hw.
  { apply wrap_int_id. unfold int_min, int_max in *. lia. }
  assert (next_offset (send ok k m st).1 k'
          = if decide (k' = k ∧ ok = true) then next_offset st k + 1
            else next_offset st k') as Hnext.
  { destruct ok.
    - rewrite send_next_offset_ok. case_decide as E; subst.
      + by rewrite decide_True, Hw.
      + rewrite decide_False; [done|]. tauto.
    - rewrite send_next_offset_failed. rewrite decide_False; [done|].
      by intros [_ ?]. }
  rewrite Hnext. split; [|split].
  - case_decide as E; [destruct E as [-> _]|]; lia.
  - intros o. rewrite send_entry.
    destruct (decide (k' = k ∧ o = next_offset st k)) as [[-> ->]|Hne].
    + intros _. case_decide; lia.
    + intros Ho. apply Hle in Ho. case_decide as E; [destruct E as [-> _]|]; lia.
  - intros o Ho. rewrite send_entry.
    destruct (decide (k' = k ∧ o = next_offset st k)) as [|Hne]; [eauto|].
    apply Hdense. case_decide as E; [destruct E as [-> _]|]; [|done].
    assert (o ≠ next_offset st k) by tauto. lia.
Qed.

Lemma run_offsets_dense (evs : list (Request * bool)) :
  Z.of_nat (length evs) ≤ int_max →
  offsets_dense (final evs) (Z.of_nat (length evs)).
Proof.
  induction evs as [|[r ok] evs IH] using rev_ind; intros Hlen.
  { intros k. split; [done|]. split.
    - intros o [? H]. done.
    - intros o Ho.
      change (next_offset (final []) k)
        with (default 0 ((∅ : gmap string Z) !! k)) in Ho.
      rewrite lookup_empty in Ho. cbn in Ho. lia. }
  rewrite length_app in *. cbn [length] in *. rewrite final_snoc.
  replace (Z.of_nat (length evs + 1)) with (Z.of_nat (length evs) + 1) by lia.
  assert (offsets_dense (final evs) (Z.of_nat (length evs) + 1)) as Hmono.
  { intros k. destruct (IH ltac:(lia) k) as (? & ? & ?). split; [lia|done]. }
  destruct r as [k m|O|O|ks]; [|done| |done].
  - apply send_offsets_dense; [lia|]. apply IH. lia.
  - unfold offsets_dense, next_offset.
    change (handle (final evs) (CommitOffsetsBody O, ok))
      with (commit_offsets ok O (final evs)).
    rewrite commit_offsets_uncommitted. apply Hmono.
Qed.

(** X12.  After any run of fewer than [2^63] requests, failed replies
    included, the counter of a key is between [0] and the number of
    requests, every offset below the counter is stored (no gap), and no
    offset outside [0 .. counter] is stored. *)
Theorem stored_offsets_gapless (evs : list (Request * bool)) (k : string) (o : Z) :
  Z.of_nat (length evs) ≤ int_max →
  0 ≤ next_offset (final evs) k ≤ Z.of_nat (length evs)
  ∧ (0 ≤ o < next_offset (final evs) k →
     is_Some (entry (uncommitted (final evs)) k o))
  ∧ (is_Some (entry (uncommitted (final evs)) k o) →
     0 ≤ o ≤ next_offset (final evs) k).
Proof.
  intros Hlen. destruct (run_offsets_dense evs Hlen k) as (Hc & Hle & Hdense).
  split; [done|]. split; [apply Hdense|apply Hle].
Qed.

Lemma stored_offsets_gapless_witness :
  let evs := [(SendBody k1 9, true); (SendBody k1 5, false);
              (SendBody k1 6, true); (SendBody k1 7, false)] in
  Z.of_nat (length evs) ≤ int_max
  ∧ next_offset (final evs) k1 = 2
  ∧ (is_Some (entry (uncommitted (final evs)) k1 2) →
     0 ≤ 2 ≤ next_offset (final evs) k1).
Proof.
  intros evs.
  assert (Z.of_nat (length evs) ≤ int_max) as Hlen by (vm_compute; discriminate).
  split; [exact Hlen|]. split; [vm_compute; reflexivity|].
  exact (proj2 (proj2 (stored_offsets_gapless evs k1 2 Hlen))).
Defined.

(** ** The log of a key is what was sent to it *)

Lemma sent_msgs_snoc (k : string) (evs : list (Request * bool))
    (ev : Request * bool) :
  sent_msgs k (evs ++ [ev])
  = sent_msgs k evs
    ++ match ev.1 with
       | SendBody k' m => if decide (k' = k) then [m] else []
       | _ => []
       end.
Proof.
  unfold sent_msgs. rewrite omap_app. f_equal. cbn.
  destruct ev.1 as [k' m| | |]; try done. by case_decide.
Qed.

Lemma run_log (evs : list (Request * bool)) (k : string) :
  (∀ k' m, (SendBody k' m, false) ∉ evs) →
  Z.of_nat (length (sent_msgs k evs)) ≤ int_max →
  next_offset (final evs) k = Z.of_nat (length (sent_msgs k evs))
  ∧ ∀ o, entry (uncommitted (final evs)) k o
         = if decide (0 ≤ o) then sent_msgs k evs !! Z.to_nat o else None.
Proof.
  induction evs as [|[r ok] evs IH] using rev_ind; intros Hsend Hlen.
  { split; [done|]. intros o. by case_decide. }
  rewrite sent_msgs_snoc in *. rewrite length_app in Hlen. cbn [fst] in *.
  destruct IH as [IHc IHe].
  { intros k' m Hin. apply (Hsend k' m), elem_of_app. by left. }
  { lia. }
  rewrite final_snoc.
  destruct r as [k' m|O|O|ks];
    try (unfold next_offset; rewrite handle_uncommitted, app_nil_r by done;
         split; [exact IHc|exact IHe]).
  destruct ok.
  2:{ destruct (Hsend k' m). apply elem_of_app. right. left. }
  change (handle (final evs) (SendBody k' m, true))
    with (send true k' m (final evs)).
  rewrite send_next_offset_ok.
  destruct (decide (k' = k)) as [->|Hne].
  - rewrite decide_True by done. cbn [length] in Hlen. split.
    + rewrite wrap_int_id; rewrite IHc, ?length_app; cbn [length];
        unfold int_min, int_max in *; lia.
    + intros o. rewrite send_entry, IHc, IHe.
      destruct (decide (0 ≤ o)) as [Ho|Ho].
      * destruct (decide (k = k ∧ o = Z.of_nat (length (sent_msgs k evs))))
          as [[_ ->]|Hn].
        -- rewrite Nat2Z.id. by rewrite lookup_app_r, Nat.sub_diag.
        -- assert (o ≠ Z.of_nat (length (sent_msgs k evs))) by tauto.
           assert (Z.to_nat o ≠ length (sent_msgs k evs)) by lia.
           destruct (decide (Z.to_nat o < length (sent_msgs k evs))%nat).
           ++ by rewrite lookup_app_l.
           ++ rewrite !lookup_ge_None_2; [done| |lia].
              rewrite length_app. cbn. lia.
      * rewrite decide_False; [done|]. intros [_ ->]. lia.
  - rewrite decide_False by congruence. rewrite app_nil_r. split; [done|].
    intros o. rewrite send_entry, decide_False; [apply IHe|].
    intros [? _]. congruence.
Qed.

(** X13.  When every reply of [send] was delivered, the log of [k] is the
    sequence of the messages sent to [k]: the [i]-th one, counting from
    [0] in completion order, is stored at offset [i], nothing else is
    stored, and the counter is their number. *)
Theorem log_is_sent_msgs (evs : list (Request * bool)) (k : string) (o : Z) :
  (∀ k' m, (SendBody k' m, false) ∉ evs) →
  Z.of_nat (length (sent_msgs k evs)) ≤ int_max →
  next_offset (final evs) k = Z.of_nat (length (sent_msgs k evs))
  ∧ entry (uncommitted (final evs)) k o
    = if decide (0 ≤ o) then sent_msgs k evs !! Z.to_nat o else None.
Proof.
  intros Hsend Hlen. destruct (run_log evs k Hsend Hlen) as [Hc He].
  split; [exact Hc|apply He].
Qed.

Lemma log_is_sent_msgs_witness :
  let evs := [(SendBody k1 9, true); (SendBody "k2" 7, true);
              (SendBody k1 5, true)] in
  (∀ k' m, (SendBody k' m, false) ∉ evs)
  ∧ Z.of_nat (length (sent_msgs k1 evs)) ≤ int_max
  ∧ entry (uncommitted (final evs)) k1 1 = Some 5.
Proof.
  intros evs.
  assert (∀ k' m, (SendBody k' m, false) ∉ evs) as Hsend.
  { intros k' m Hin. subst evs.
    repeat (apply elem_of_cons in Hin as [Hin|Hin]; [discriminate Hin|]).
    by apply not_elem_of_nil in Hin. }
  assert (Z.of_nat (length (sent_msgs k1 evs)) ≤ int_max) as Hlen
    by (vm_compute; discriminate).
  split; [exact Hsend|]. split; [exact Hlen|].
  rewrite (proj2 (log_is_sent_msgs evs k1 1 Hsend Hlen)).
  vm_compute. reflexivity.
Defined.

(** ** [poll] returns the log in the order of the appends *)

Lemma numbered_elem (a : Z) (l : list Z) (o m : Z) :
  (o, m) ∈ numbered a l ↔ a ≤ o ∧ l !! Z.to_nat (o - a) = Some m.
Proof.
  revert a. induction l as [|m0 l IH]; intros a; cbn [numbered].
  { split; [by intros ?%not_elem_of_nil|by intros [_ ?]]. }
  rewrite elem_of_cons, IH. split.
  - intros [[= -> ->]|[Hle Hl]].
    + split; [lia|]. by rewrite Z.sub_diag.
    + split; [lia|].
      replace (Z.to_nat (o - a)) with (S (Z.to_nat (o - (a + 1)))) by lia.
      done.
  - intros [Hle Hl]. destruct (decide (o = a)) as [->|Hne].
    + left. rewrite Z.sub_diag in Hl. change (Some m0 = Some m) in Hl.
      by simplify_eq.
    + right. split; [lia|].
      replace (Z.to_nat (o - a)) with (S (Z.to_nat (o - (a + 1)))) in Hl by lia.
      done.
Qed.

Lemma numbered_sorted (a : Z) (l : list Z) :
  StronglySorted Z.lt (numbered a l).*1.
Proof.
  revert a. induction l as [|m0 l IH]; intros a; cbn [numbered].
  { constructor. }
  rewrite fmap_cons. constructor; [apply IH|].
  apply Forall_forall. intros o Ho.
  apply list_elem_of_fmap in Ho as [[o' m] [-> Hin]].
  apply numbered_elem in Hin as [? _]. cbn. lia.
Qed.

Lemma sorted_fst (l : list (Z * Z)) :
  StronglySorted Z.lt l.*1 ↔ StronglySorted (λ x y : Z * Z, x.1 < y.1) l.
Proof.
  induction l as [|p l IH].
  { split; constructor. }
  by rewrite fmap_cons, !StronglySorted_cons, Forall_fmap, IH.
Qed.

Lemma StronglySorted_filter {A : Type} (R : relation A) (P : A → Prop)
    `{∀ x, Decision (P x)} (l : list A) :
  StronglySorted R l → StronglySorted R (filter P l).
Proof.
  induction 1 as [|x l Hl IH Hx]; [constructor|].
  rewrite filter_cons. case_decide; [|done]. constructor; [done|].
  rewrite Forall_forall in *. intros y Hy.
  apply list_elem_of_filter in Hy as [_ Hy]. by apply Hx.
Qed.

(** Two lists of pairs with strictly ascending offsets and the same
    elements are equal. *)
Lemma sorted_fst_unique (l1 l2 : list (Z * Z)) :
  StronglySorted Z.lt l1.*1 → StronglySorted Z.lt l2.*1 →
  (∀ p, p ∈ l1 ↔ p ∈ l2) → l1 = l2.
Proof.
  intros H1 H2 Hel.
  assert (∀ l : list (Z * Z), StronglySorted Z.lt l.*1 → NoDup l) as Hnd.
  { intros l Hl. apply (NoDup_fmap_1 fst). clear -Hl.
    induction Hl as [|x l' Hl IH Hx]; constructor; [|done].
    intros Hin. rewrite Forall_forall in Hx. specialize (Hx x Hin). lia. }
  apply (StronglySorted_unique_strong (λ x y : Z * Z, x.1 < y.1)).
  - intros x y _ _ Hxy Hyx. lia.
  - by apply sorted_fst.
  - by apply sorted_fst.
  - apply NoDup_Permutation; auto.
Qed.

(** X14.  When every reply of [send] was delivered, [poll] on [{k: s}]
    returns the messages sent to [k], each paired with its position in
    completion order, from position [s] on and in that order; [k] is left
    out when no message has position [s] or more. *)
Theorem poll_returns_log (evs : list (Request * bool)) (k : string) (s : Z) :
  (∀ k' m, (SendBody k' m, false) ∉ evs) →
  Z.of_nat (length (sent_msgs k evs)) ≤ int_max →
  poll_msgs (uncommitted (final evs)) {[k := s]} !! k
  = if decide (filter (λ p : Z * Z, s ≤ p.1) (numbered 0 (sent_msgs k evs)) = [])
    then None
    else Some (filter (λ p : Z * Z, s ≤ p.1) (numbered 0 (sent_msgs k evs))).
Proof.
  intros Hsend Hlen. destruct (run_log evs k Hsend Hlen) as [_ He].
  rewrite poll_msgs_lookup, lookup_singleton_eq.
  destruct (msgs (uncommitted (final evs)) !! k) as [km|] eqn:E.
  - assert (poll_pairs km s
            = filter (λ p : Z * Z, s ≤ p.1) (numbered 0 (sent_msgs k evs))) as ->.
    { apply sorted_fst_unique.
      - apply poll_pairs_sorted.
      - apply sorted_fst, StronglySorted_filter, sorted_fst, numbered_sorted.
      - intros [o m]. rewrite poll_pairs_elem, list_elem_of_filter, numbered_elem.
        specialize (He o). unfold entry in He. rewrite E in He. cbn in He.
        rewrite He, Z.sub_0_r. cbn [fst]. case_decide; [tauto|].
        split; [by intros [? _]|tauto]. }
    done.
  - assert (sent_msgs k evs = []) as ->.
    { specialize (He 0). unfold entry in He. rewrite E in He. cbn in He.
      by destruct (sent_msgs k evs). }
    done.
Qed.

Lemma poll_returns_log_witness :
  let evs := [(SendBody k1 9, true); (SendBody "k2" 7, true);
              (SendBody k1 5, true); (SendBody k1 6, true)] in
  (∀ k' m, (SendBody k' m, false) ∉ evs)
  ∧ Z.of_nat (length (sent_msgs k1 evs)) ≤ int_max
  ∧ poll_msgs (uncommitted (final evs)) {[k1 := 1]} !! k1 = Some [(1, 5); (2, 6)].
Proof.
  intros evs.
  assert (∀ k' m, (SendBody k' m, false) ∉ evs) as Hsend.
  { intros k' m Hin. subst evs.
    repeat (apply elem_of_cons in Hin as [Hin|Hin]; [discriminate Hin|]).
    by apply not_elem_of_nil in Hin. }
  assert (Z.of_nat (length (sent_msgs k1 evs)) ≤ int_max) as Hlen
    by (vm_compute; discriminate).
  split; [exact Hsend|]. split; [exact Hlen|].
  rewrite (poll_returns_log evs k1 1 Hsend Hlen). vm_compute. reflexivity.
Defined.

(** ** Any traversal order gives the same result *)

Lemma commit_key_in_eq (inner : string → gmap Z Z → list (Z * Z)) (st : Store)
    (kv : string * Z) :
  (∀ k m, inner k m ≡ₚ map_to_list m) →
  commit_key_in inner st kv = commit_key st kv.
Proof.
  intros Hinner. unfold commit_key_in, commit_key.
  destruct (msgs (uncommitted st) !! kv.1) as [ukm|]; [|done]. cbn zeta.
  rewrite (commit_entries_perm _ _ (map_to_list ukm) (inner kv.1 ukm)); [done| |].
  - apply NoDup_fst_map_to_list.
  - by rewrite Hinner.
Qed.

(** X15.  The store left by [commit_offsets] does not depend on the order
    in which the two [range] loops visit the maps: any order of the
    requested keys and, for each key, any order of its uncommitted entries
    gives the same store. *)
Theorem commit_order_irrelevant (inner : string → gmap Z Z → list (Z * Z))
    (l : list (string * Z)) (st : Store) (Offsets : gmap string Z) (ok : bool) :
  (∀ k m, inner k m ≡ₚ map_to_list m) →
  l ≡ₚ map_to_list Offsets →
  foldl (commit_key_in inner) st l = (commit_offsets ok Offsets st).1.
Proof.
  intros Hinner Hl. unfold commit_offsets. cbn [fst].
  rewrite (commit_keys_perm (map_to_list Offsets) l);
    [|apply NoDup_fst_map_to_list|done].
  clear Hl. revert st. induction l as [|kv l IH]; intros st; [done|].
  cbn [foldl]. by rewrite commit_key_in_eq, IH.
Qed.

Lemma commit_order_irrelevant_witness :
  let st := final [(SendBody k1 9, true); (SendBody k1 5, true);
                   (SendBody "k2" 7, true)] in
  let Offsets : gmap string Z := {[k1 := 1; "k2" := 0]} in
  (∀ (k : string) (m : gmap Z Z), reverse (map_to_list m) ≡ₚ map_to_list m)
  ∧ reverse (map_to_list Offsets) ≡ₚ map_to_list Offsets
  ∧ foldl (commit_key_in (λ _ m, reverse (map_to_list m))) st
          (reverse (map_to_list Offsets))
    = (commit_offsets true Offsets st).1.
Proof.
  intros st Offsets.
  assert (∀ (k : string) (m : gmap Z Z),
            reverse (map_to_list m) ≡ₚ map_to_list m) as Hinner
    by (intros; apply reverse_Permutation).
  assert (reverse (map_to_list Offsets) ≡ₚ map_to_list Offsets) as Hl
    by apply reverse_Permutation.
  split; [exact Hinner|]. split; [exact Hl|].
  exact (commit_order_irrelevant _ _ st Offsets true Hinner Hl).
Defined.

Lemma poll_key_in_eq (inner : string → gmap Z Z → list Z) (u : logs)
    (acc : gmap string (list (Z * Z))) (kv : string * Z) :
  (∀ k m, inner k m ≡ₚ (map_to_list m).*1) →
  poll_key_in inner u acc kv = poll_key u acc kv.
Proof.
  intros Hinner. unfold poll_key_in, poll_key.
  destruct (msgs u !! kv.1) as [km|]; [|done].
  by rewrite (sorted_scan_perm _ _ _ (Hinner kv.1 km)).
Qed.

(** X16.  The reply of [poll] does not depend on the order in which the
    [range] loops visit the maps: any order of the requested keys and, for
    each key, any order of its stored offsets gives the same reply. *)
Theorem poll_order_irrelevant (inner : string → gmap Z Z → list Z)
    (l : list (string * Z)) (u : logs) (Offsets : gmap string Z) :
  (∀ k m, inner k m ≡ₚ (map_to_list m).*1) →
  l ≡ₚ map_to_list Offsets →
  foldl (poll_key_in inner u) ∅ l = poll_msgs u Offsets.
Proof.
  intros Hinner Hl. unfold poll_msgs.
  rewrite (poll_keys_perm u (map_to_list Offsets) l);
    [|apply NoDup_fst_map_to_list|done].
  clear Hl. generalize (∅ : gmap string (list (Z * Z))) as acc.
  induction l as [|kv l IH]; intros acc; [done|].
  cbn [foldl]. by rewrite poll_key_in_eq, IH.
Qed.

Lemma poll_order_irrelevant_witness :
  let u := uncommitted (final [(SendBody k1 9, true); (SendBody k1 5, true);
                               (SendBody "k2" 7, true)]) in
  let Offsets : gmap string Z := {[k1 := 0; "k2" := 0]} in
  (∀ (k : string) (m : gmap Z Z),
     reverse (map_to_list m).*1 ≡ₚ (map_to_list m).*1)
  ∧ reverse (map_to_list Offsets) ≡ₚ map_to_list Offsets
  ∧ foldl (poll_key_in (λ _ m, reverse (map_to_list m).*1) u) ∅
          (reverse (map_to_list Offsets))
    = poll_msgs u Offsets.
Proof.
  intros u Offsets.
  assert (∀ (k : string) (m : gmap Z Z),
            reverse (map_to_list m).*1 ≡ₚ (map_to_list m).*1) as Hinner
    by (intros; apply reverse_Permutation).
  assert (reverse (map_to_list Offsets) ≡ₚ map_to_list Offsets) as Hl
    by apply reverse_Permutation.
  split; [exact Hinner|]. split; [exact Hl|].
  exact (poll_order_irrelevant _ _ u Offsets Hinner Hl).
Defined.

(** ** Polling from a later offset *)

(** X17.  For every store, what [poll] returns for [k] from a later offset
    [s'] is what it returns from an earlier offset [s] without the pairs
    below [s']: a sub-list in the same order, or no entry for [k] when
    nothing is left. *)
Theorem poll_from_later (st : Store) (k : string) (s s' : Z) :
  s ≤ s' →
  poll_msgs (uncommitted st) {[k := s']} !! k
  = match poll_msgs (uncommitted st) {[k := s]} !! k with
    | Some l =>
        if decide (filter (λ p : Z * Z, s' ≤ p.1) l = []) then None
        else Some (filter (λ p : Z * Z, s' ≤ p.1) l)
    | None => None
    end.
Proof.
  intros Hs. rewrite !poll_msgs_lookup, !lookup_singleton_eq.
  destruct (msgs (uncommitted st) !! k) as [km|]; [|done].
  assert (poll_pairs km s' = filter (λ p : Z * Z, s' ≤ p.1) (poll_pairs km s))
    as Hsub.
  { apply sorted_fst_unique.
    - apply poll_pairs_sorted.
    - apply sorted_fst, StronglySorted_filter, sorted_fst, poll_pairs_sorted.
    - intros [o m]. rewrite list_elem_of_filter, !poll_pairs_elem. cbn [fst].
      split; [intros [? ?]; repeat split; [done..|lia]|tauto]. }
  destruct (decide (poll_pairs km s = [])) as [E|E].
  - rewrite Hsub, E. done.
  - by rewrite Hsub.
Qed.

Lemma poll_from_later_witness :
  let st := final [(SendBody k1 9, true); (SendBody k1 5, true);
                   (SendBody k1 6, true)] in
  0 ≤ 2
  ∧ poll_msgs (uncommitted st) {[k1 := 0]} !! k1 = Some [(0, 9); (1, 5); (2, 6)]
  ∧ poll_msgs (uncommitted st) {[k1 := 2]} !! k1 = Some [(2, 6)].
Proof.
  intros st. assert (0 ≤ 2) as Hs by lia.
  split; [exact Hs|]. split; [vm_compute; reflexivity|].
  rewrite (poll_from_later st k1 0 2 Hs). vm_compute. reflexivity.
Defined.

(** ** Commit, then list *)

(** X18.  When every key of a [commit_offsets] request is in the
    uncommitted table, listing the committed offsets of the keys of the
    request right after it gives the request back. *)
Theorem commit_then_list (st : Store) (Offsets : gmap string Z) (ok : bool) :
  (∀ k, is_Some (Offsets !! k) → is_Some (msgs (uncommitted st) !! k)) →
  list_offsets (committed (commit_offsets ok Offsets st).1) (map_to_list Offsets).*1
  = Offsets.
Proof.
  intros Hknown. apply map_eq. intros k.
  rewrite list_offsets_lookup, commit_offsets_marker.
  destruct (Offsets !! k) as [o|] eqn:E.
  - rewrite decide_True.
    + destruct (Hknown k) as [km ->]; [by rewrite E|done].
    + apply list_elem_of_fmap. exists (k, o). split; [done|].
      by apply elem_of_map_to_list.
  - rewrite decide_False; [done|]. intros Hin.
    apply list_elem_of_fmap in Hin as [[k' o] [-> Hin]].
    apply elem_of_map_to_list in Hin. cbn [fst] in E. congruence.
Qed.

Lemma commit_then_list_witness :
  let st := final [(SendBody k1 9, true); (SendBody "k2" 7, true)] in
  let Offsets : gmap string Z := {[k1 := 0; "k2" := 3]} in
  (∀ k, is_Some (Offsets !! k) → is_Some (msgs (uncommitted st) !! k))
  ∧ list_offsets (committed (commit_offsets true Offsets st).1)
                 (map_to_list Offsets).*1 = Offsets.
Proof.
  intros st Offsets.
  assert (∀ k, is_Some (Offsets !! k) → is_Some (msgs (uncommitted st) !! k))
    as Hknown.
  { intros k. unfold Offsets.
    destruct (decide (k = k1)) as [->|H1]; [intros _; vm_compute; eauto|].
    destruct (decide (k = "k2")) as [->|H2]; [intros _; vm_compute; eauto|].
    rewrite lookup_insert_ne, lookup_singleton_ne by done. by intros [? ?]. }
  split; [exact Hknown|]. exact (commit_then_list st Offsets true Hknown).
Defined.
